(** * SegmentTracker: position cursor and chunk delivery state machine

    Shallow embedding of [modules/demux/adaptive/SegmentTracker.cpp].

    Pointers to representations, adaptation sets, segments and listeners are
    modelled by identifiers, a null pointer by [None].  Everything that lives
    behind those pointers (playlists, adaptation logic, buffering logic,
    network sources, listeners) is an abstract world [W] that the tracker
    reaches only through the method table [Env]. *)

From Stdlib Require Import ZArith List Bool String Lia.
From Stdlib.Strings Require Import Byte.
Import ListNotations.
Local Open Scope Z_scope.

(** ** Identifiers standing for the pointers the tracker holds *)

Definition RepId := nat.        (* BaseRepresentation *  *)
Definition AdaptSetId := nat.   (* BaseAdaptationSet *, also used for its ID *)
Definition SegId := nat.        (* ISegment * *)
Definition ListenerId := nat.   (* SegmentTrackerListenerInterface * *)
Definition ConnManager := nat.  (* AbstractConnectionManager * *)

(** [std::numeric_limits<uint64_t>::max()] *)
Definition uint64_max : Z := 2 ^ 64 - 1.

(** Pointer comparison [a == b] on nullable representation pointers. *)
Definition rep_eqb (a b : option RepId) : bool :=
  match a, b with
  | Some x, Some y => Nat.eqb x y
  | None, None => true
  | _, _ => false
  end.

(** ** SegmentTracker::Position *)

Module Position.

Record t := mk {
  rep : option RepId;
  number : Z;            (* uint64_t *)
  init_sent : bool;
  index_sent : bool
}.

(** [Position::Position()] *)
Definition default : t :=
  {| rep := None; number := uint64_max; init_sent := false; index_sent := false |}.

(** [Position::Position(BaseRepresentation *rep, uint64_t number)] *)
Definition make (r : option RepId) (n : Z) : t :=
  {| rep := r; number := n; init_sent := false; index_sent := false |}.

(** [Position::isValid()] *)
Definition isValid (p : t) : bool :=
  negb (number p =? uint64_max) &&
  match rep p with Some _ => true | None => false end.

(** [Position::operator++()]; [++number] is on a [uint64_t]. *)
Definition incr (p : t) : t :=
  if isValid p then
    if index_sent p then
      {| rep := rep p; number := (number p + 1) mod 2 ^ 64;
         init_sent := init_sent p; index_sent := index_sent p |}
    else if init_sent p then
      {| rep := rep p; number := number p;
         init_sent := init_sent p; index_sent := true |}
    else
      {| rep := rep p; number := number p;
         init_sent := true; index_sent := index_sent p |}
  else p.

Definition with_number (n : Z) (p : t) : t :=
  {| rep := rep p; number := n; init_sent := init_sent p; index_sent := index_sent p |}.

(** A [uint64_t] value. *)
Definition in_range (n : Z) : Prop := 0 <= n <= uint64_max.

End Position.

(** ** Stream formats, chunks, chunk entries and tracker events *)

(** Modelled from the spec: [StreamFormat.hpp] is not among the sources.  A
    format is "Unknown / Unsupported / known-codec tag", and [==] compares
    tags. *)
Inductive StreamFormat :=
| Unknown
| Unsupported
| Codec (tag : nat).

Definition StreamFormat_eqb (a b : StreamFormat) : bool :=
  match a, b with
  | Unknown, Unknown => true
  | Unsupported, Unsupported => true
  | Codec x, Codec y => Nat.eqb x y
  | _, _ => false
  end.

(** The fields of a [SegmentChunk] the tracker reads or writes. *)
Record SegmentChunk := {
  chunk_id : nat;
  discontinuity : bool;
  discontinuitySequenceNumber : Z;
  streamFormat : StreamFormat       (* getStreamFormat() / setStreamFormat() *)
}.

Definition setStreamFormat (f : StreamFormat) (c : SegmentChunk) : SegmentChunk :=
  {| chunk_id := chunk_id c;
     discontinuity := discontinuity c;
     discontinuitySequenceNumber := discontinuitySequenceNumber c;
     streamFormat := f |}.

(** What [getNextChunk] hands out: the chunk itself or a [ProbeableChunk]
    wrapped around it. *)
Inductive ChunkInterface :=
| PlainChunk (c : SegmentChunk)
| ProbeableChunk (c : SegmentChunk).

Definition wrapped (r : ChunkInterface) : SegmentChunk :=
  match r with PlainChunk c | ProbeableChunk c => c end.

Module ChunkEntry.

Record t := mk {
  chunk : option SegmentChunk;
  pos : Position.t;
  starttime : Z;
  duration : Z;
  displaytime : Z
}.

(** [ChunkEntry::ChunkEntry()]; the three times are left uninitialised by
    the source and are never read on an invalid entry. *)
Definition default : t :=
  {| chunk := None; pos := Position.default;
     starttime := 0; duration := 0; displaytime := 0 |}.

(** [ChunkEntry::isValid()] *)
Definition isValid (e : t) : bool :=
  match chunk e with Some _ => true | None => false end &&
  Position.isValid (pos e).

End ChunkEntry.

Inductive TrackerEvent :=
| DiscontinuityEvent (d : Z)
| SegmentGapEvent
| RepresentationSwitchEvent (prev next : option RepId)
| RepresentationUpdatedEvent (rep : RepId)
| RepresentationUpdateFailedEvent (rep : RepId)
| FormatChangedEvent (f : StreamFormat)
| SegmentChangedEvent (id : AdaptSetId) (sequence starttime duration displaytime : Z)
| BufferingStateUpdatedEvent (id : AdaptSetId) (enabled : bool)
| BufferingLevelChangedEvent (id : AdaptSetId) (minimum maximum current target : Z)
| PositionChangedEvent (resumeTime : Z).

Definition isSegmentGap (e : TrackerEvent) : bool :=
  match e with SegmentGapEvent => true | _ => false end.

Definition isDiscontinuity (e : TrackerEvent) : bool :=
  match e with DiscontinuityEvent _ => true | _ => false end.

Definition isFormatChanged (e : TrackerEvent) : bool :=
  match e with FormatChangedEvent _ => true | _ => false end.

Definition isSegmentChanged (e : TrackerEvent) : bool :=
  match e with SegmentChangedEvent _ _ _ _ _ => true | _ => false end.

Definition isRepresentationSwitch (e : TrackerEvent) : bool :=
  match e with RepresentationSwitchEvent _ _ => true | _ => false end.

(** The notifications that can precede the gap, discontinuity and segment
    notifications of one [getNextChunk] call. *)
Definition isPrelude (e : TrackerEvent) : bool :=
  match e with
  | RepresentationUpdatedEvent _ | RepresentationSwitchEvent _ _
  | FormatChangedEvent _ => true
  | _ => false
  end.

Definition isRepresentationUpdated (e : TrackerEvent) : Prop :=
  match e with RepresentationUpdatedEvent _ => True | _ => False end.

(** ** The tracker's own fields *)

Record SegmentTracker := {
  first : bool;
  initializing : bool;
  current : Position.t;
  next : Position.t;
  chunkssequence : list ChunkEntry.t;
  logic : ListenerId;               (* AbstractAdaptationLogic *, also a listener *)
  bufferingLogic : nat;
  adaptationSet : option AdaptSetId;
  listeners : list ListenerId;
  format : StreamFormat
}.

Definition set_initializing (b : bool) (t : SegmentTracker) : SegmentTracker :=
  {| first := first t; initializing := b; current := current t; next := next t;
     chunkssequence := chunkssequence t; logic := logic t;
     bufferingLogic := bufferingLogic t; adaptationSet := adaptationSet t;
     listeners := listeners t; format := format t |}.

Definition set_current (p : Position.t) (t : SegmentTracker) : SegmentTracker :=
  {| first := first t; initializing := initializing t; current := p; next := next t;
     chunkssequence := chunkssequence t; logic := logic t;
     bufferingLogic := bufferingLogic t; adaptationSet := adaptationSet t;
     listeners := listeners t; format := format t |}.

Definition set_next (p : Position.t) (t : SegmentTracker) : SegmentTracker :=
  {| first := first t; initializing := initializing t; current := current t; next := p;
     chunkssequence := chunkssequence t; logic := logic t;
     bufferingLogic := bufferingLogic t; adaptationSet := adaptationSet t;
     listeners := listeners t; format := format t |}.

Definition set_chunkssequence (q : list ChunkEntry.t) (t : SegmentTracker) : SegmentTracker :=
  {| first := first t; initializing := initializing t; current := current t; next := next t;
     chunkssequence := q; logic := logic t;
     bufferingLogic := bufferingLogic t; adaptationSet := adaptationSet t;
     listeners := listeners t; format := format t |}.

Definition set_format (f : StreamFormat) (t : SegmentTracker) : SegmentTracker :=
  {| first := first t; initializing := initializing t; current := current t; next := next t;
     chunkssequence := chunkssequence t; logic := logic t;
     bufferingLogic := bufferingLogic t; adaptationSet := adaptationSet t;
     listeners := listeners t; format := f |}.

Definition set_logic (l : ListenerId) (t : SegmentTracker) : SegmentTracker :=
  {| first := first t; initializing := initializing t; current := current t; next := next t;
     chunkssequence := chunkssequence t; logic := l;
     bufferingLogic := bufferingLogic t; adaptationSet := adaptationSet t;
     listeners := listeners t; format := format t |}.

Definition set_listeners (l : list ListenerId) (t : SegmentTracker) : SegmentTracker :=
  {| first := first t; initializing := initializing t; current := current t; next := next t;
     chunkssequence := chunkssequence t; logic := logic t;
     bufferingLogic := bufferingLogic t; adaptationSet := adaptationSet t;
     listeners := l; format := format t |}.

(** [chunkssequence.pop_front()] *)
Definition pop_front (t : SegmentTracker) : SegmentTracker :=
  set_chunkssequence (tl (chunkssequence t)) t.

(** [chunkssequence.push_back(c)] *)
Definition push_back (c : ChunkEntry.t) (t : SegmentTracker) : SegmentTracker :=
  set_chunkssequence (chunkssequence t ++ [c]) t.

(** ** The collaborators

    One field per method the tracker calls on an object it does not own.
    Accessors read the world; the calls that refresh a playlist, take an
    adaptation decision, open or read a network source, or run a listener may
    change it.  The constants and [StreamFormat] constructors that are declared
    outside this file are fields as well. *)
Record Env (W : Type) := {
  logic_getNextRepresentation :
    ListenerId -> option AdaptSetId -> option RepId -> W -> option RepId * W;
  bl_getStartSegmentNumber : nat -> RepId -> W -> Z;
  set_isSegmentAligned : AdaptSetId -> W -> bool;
  playlist_isLive : AdaptSetId -> W -> bool;
  rep_needsUpdate : RepId -> Z -> W -> bool;
  rep_runLocalUpdates : RepId -> W -> bool * W;
  rep_scheduleNextUpdate : RepId -> Z -> bool -> W -> W;
  rep_canNoLongerUpdate : RepId -> W -> bool;
  rep_translateSegmentNumber : RepId -> Z -> option RepId -> W -> Z;
  rep_getMinAheadTime : RepId -> Z -> W -> Z;
  rep_getNextMediaSegment : RepId -> Z -> W -> option (SegId * Z * bool);
  rep_getInitSegment : RepId -> W -> option SegId;
  rep_getIndexSegment : RepId -> W -> option SegId;
  rep_needsIndex : RepId -> W -> bool;
  rep_getPlaybackTimeDurationBySegmentNumber : RepId -> Z -> W -> option (Z * Z);
  rep_getSegmentNumberByTime : RepId -> Z -> W -> option Z;
  rep_getStreamFormat : RepId -> W -> StreamFormat;
  seg_toChunk : SegId -> ConnManager -> Z -> RepId -> W -> option SegmentChunk * W;
  seg_getDisplayTime : SegId -> W -> Z;
  chunk_peek : SegmentChunk -> W -> list byte * W;
  chunk_getContentType : SegmentChunk -> W -> string;
  chunk_delete : SegmentChunk -> W -> W;
  listener_trackerEvent : ListenerId -> TrackerEvent -> SegmentTracker -> W -> W;
  StreamFormat_of_bytes : list byte -> StreamFormat;
  StreamFormat_of_mime : string -> StreamFormat;
  VLC_TS_INVALID : Z;
  VLC_TS_0 : Z
}.

Arguments logic_getNextRepresentation {W}.
Arguments bl_getStartSegmentNumber {W}.
Arguments set_isSegmentAligned {W}.
Arguments playlist_isLive {W}.
Arguments rep_needsUpdate {W}.
Arguments rep_runLocalUpdates {W}.
Arguments rep_scheduleNextUpdate {W}.
Arguments rep_canNoLongerUpdate {W}.
Arguments rep_translateSegmentNumber {W}.
Arguments rep_getMinAheadTime {W}.
Arguments rep_getNextMediaSegment {W}.
Arguments rep_getInitSegment {W}.
Arguments rep_getIndexSegment {W}.
Arguments rep_needsIndex {W}.
Arguments rep_getPlaybackTimeDurationBySegmentNumber {W}.
Arguments rep_getSegmentNumberByTime {W}.
Arguments rep_getStreamFormat {W}.
Arguments seg_toChunk {W}.
Arguments seg_getDisplayTime {W}.
Arguments chunk_peek {W}.
Arguments chunk_getContentType {W}.
Arguments chunk_delete {W}.
Arguments listener_trackerEvent {W}.
Arguments StreamFormat_of_bytes {W}.
Arguments StreamFormat_of_mime {W}.
Arguments VLC_TS_INVALID {W}.
Arguments VLC_TS_0 {W}.

(** ** State, notifications and sequencing *)

(** A notification as a listener sees it: the event and the tracker's fields
    at the moment [notify] runs. *)
Definition Emitted : Type := TrackerEvent * SegmentTracker.

Definition events (l : list Emitted) : list TrackerEvent := map fst l.

Record Sys (W : Type) := mkSys { world : W; trk : SegmentTracker }.
Arguments mkSys {W}.
Arguments world {W}.
Arguments trk {W}.

(** A method body: it runs on the world and the tracker, returns a value and
    the notifications it sent, in order. *)
Definition M (W A : Type) : Type := Sys W -> A * Sys W * list Emitted.

Definition ret {W A} (a : A) : M W A := fun s => (a, s, []).

Definition bind {W A B} (m : M W A) (f : A -> M W B) : M W B :=
  fun s =>
    let '(a, s1, l1) := m s in
    let '(b, s2, l2) := f a s1 in
    (b, s2, l1 ++ l2).

Declare Scope tracker_scope.
Delimit Scope tracker_scope with trk.
Notation "x <- c1 ;; c2" := (bind c1 (fun x => c2))
  (at level 61, c1 at next level, right associativity) : tracker_scope.
Notation "' pat <- c1 ;; c2" := (bind c1 (fun x => match x with pat => c2 end))
  (at level 61, pat pattern, c1 at next level, right associativity) : tracker_scope.
Notation "c1 ;; c2" := (bind c1 (fun _ => c2))
  (at level 61, right associativity) : tracker_scope.

Definition result {W A} (r : A * Sys W * list Emitted) : A := fst (fst r).
Definition final {W A} (r : A * Sys W * list Emitted) : Sys W := snd (fst r).
Definition sent {W A} (r : A * Sys W * list Emitted) : list Emitted := snd r.

(** [keeps P m]: running [m] preserves the property [P] of the tracker's
    fields. *)
Definition keeps {W A} (P : SegmentTracker -> Prop) (m : M W A) : Prop :=
  forall s, P (trk s) -> P (trk (final (m s))).

(** [emits Q m]: every notification [m] sends satisfies [Q]. *)
Definition emits {W A} (Q : TrackerEvent -> Prop) (m : M W A) : Prop :=
  forall s, Forall (fun e => Q (fst e)) (sent (m s)).

Section Tracker.

Context {W : Type} (E : Env W).
Local Open Scope tracker_scope.

Definition getTracker : M W SegmentTracker := fun s => (trk s, s, []).

Definition modify (f : SegmentTracker -> SegmentTracker) : M W unit :=
  fun s => (tt, mkSys (world s) (f (trk s)), []).

(** A call that may change the world. *)
Definition call {A} (f : W -> A * W) : M W A :=
  fun s => (fst (f (world s)), mkSys (snd (f (world s))) (trk s), []).

Definition call_ (f : W -> W) : M W unit :=
  fun s => (tt, mkSys (f (world s)) (trk s), []).

(** A read-only call. *)
Definition ask {A} (f : W -> A) : M W A :=
  fun s => (f (world s), s, []).

(** [SegmentTracker::notify]: every listener, in registration order. *)
Definition notify (ev : TrackerEvent) : M W unit :=
  fun s =>
    (tt,
     mkSys (fold_left (fun w l => listener_trackerEvent E l ev (trk s) w)
                      (listeners (trk s)) (world s))
           (trk s),
     [(ev, trk s)]).

Definition when (b : bool) (m : M W unit) : M W unit :=
  if b then m else ret tt.

(** [SegmentTracker::registerListener] *)
Definition registerListener (l : ListenerId) : M W unit :=
  modify (fun t => set_listeners (listeners t ++ [l]) t).

(** [SegmentTracker::setAdaptationLogic] *)
Definition setAdaptationLogic (l : ListenerId) : M W unit :=
  modify (set_logic l);;
  registerListener l.

(** [SegmentTracker::SegmentTracker]: the fields right after construction. *)
Definition constructed (logic_ : ListenerId) (bl : nat)
           (adaptSet : option AdaptSetId) : SegmentTracker :=
  {| first := true; initializing := true;
     current := Position.default; next := Position.default;
     chunkssequence := [];
     logic := logic_; bufferingLogic := bl; adaptationSet := adaptSet;
     listeners := [logic_];
     format := Unknown |}.

(** [delete chunk] on a possibly null chunk pointer. *)
Definition deleteChunk (c : option SegmentChunk) : M W unit :=
  match c with
  | Some ck => call_ (chunk_delete E ck)
  | None => ret tt
  end.

(** [SegmentTracker::resetChunksSequence] *)
Fixpoint deleteAll (q : list ChunkEntry.t) : M W unit :=
  match q with
  | [] => ret tt
  | e :: q' => deleteChunk (ChunkEntry.chunk e);; modify pop_front;; deleteAll q'
  end.

Definition resetChunksSequence : M W unit :=
  t <- getTracker;;
  deleteAll (chunkssequence t).

(** [SegmentTracker::reset] *)
Definition reset : M W unit :=
  t <- getTracker;;
  notify (RepresentationSwitchEvent (Position.rep (current t)) None);;
  modify (set_current Position.default);;
  modify (set_next Position.default);;
  resetChunksSequence;;
  modify (set_initializing true);;
  modify (set_format Unknown).

(** [SegmentTracker::~SegmentTracker] *)
Definition destroy : M W unit := reset.

(** A tracker that has just been constructed or reset. *)
Definition justStarted (s : Sys W) : Prop :=
  (exists logic_ bl adaptSet, trk s = constructed logic_ bl adaptSet)
  \/ (exists s0, s = final (reset s0)).

(** [SegmentTracker::getStartPosition] *)
Definition getStartPosition : M W Position.t :=
  t <- getTracker;;
  r <- call (logic_getNextRepresentation E (logic t) (adaptationSet t) None);;
  match r with
  | None => ret Position.default
  | Some rp =>
      nu <- ask (rep_needsUpdate E rp uint64_max);;
      b_updated <- (if nu then call (rep_runLocalUpdates E rp) else ret false);;
      n <- ask (bl_getStartSegmentNumber E (bufferingLogic t) rp);;
      call_ (rep_scheduleNextUpdate E rp n b_updated);;
      when b_updated (notify (RepresentationUpdatedEvent rp));;
      ret (Position.make (Some rp) n)
  end.

(** [prepareChunk], lines 287-305: the position on the representation the
    adaptation logic proposes, or an invalid one when the switch is
    dropped. *)
Definition switchCandidate (pos : Position.t) : M W Position.t :=
  t <- getTracker;;
  r <- call (logic_getNextRepresentation E (logic t) (adaptationSet t) (Position.rep pos));;
  match r with
  | Some c =>
      if negb (rep_eqb (Some c) (Position.rep pos)) then
        n <- ask (rep_translateSegmentNumber E c (Position.number pos) (Position.rep pos));;
        nu <- ask (rep_needsUpdate E c n);;
        (if nu then
           u <- call (rep_runLocalUpdates E c);;
           call_ (rep_scheduleNextUpdate E c n u)
         else ret tt);;
        n <- (if negb (Position.isValid (Position.make (Some c) n)) then
                ask (rep_translateSegmentNumber E c (Position.number pos) (Position.rep pos))
              else ret n);;
        let temp := Position.make (Some c) n in
        past <- (if Position.isValid temp then
                   a <- ask (rep_getMinAheadTime E c n);; ret (a =? 0)
                 else ret false);;
        ret (if past then Position.default else temp)
      else ret (Position.make (Some c) uint64_max)
  | None => ret Position.default
  end.

(** [prepareChunk], lines 280-309: continuing from a valid position. *)
Definition continuePosition (aset : AdaptSetId) (switch_allowed : bool)
           (pos : Position.t) : M W Position.t :=
  aligned <- ask (set_isSegmentAligned E aset);;
  let switch_allowed :=
    if negb aligned || negb (Position.init_sent pos) || negb (Position.index_sent pos)
    then false else switch_allowed in
  if switch_allowed then
    temp <- switchCandidate pos;;
    ret (if Position.isValid temp then temp else pos)
  else ret pos.

(** [prepareChunk], lines 311-347: resolve the segment for [pos], pick the
    init, index or media segment and open it.  Times are [mtime_t]; the one
    addition is kept exact, a signed overflow having no defined result. *)
Definition openChunk (pos : Position.t) (cm : ConnManager) : M W ChunkEntry.t :=
  match Position.rep pos with
  | None => ret ChunkEntry.default
  | Some r =>
      found <- ask (rep_getNextMediaSegment E r (Position.number pos));;
      match found with
      | None => ret ChunkEntry.default
      | Some (datasegment, num, b_gap) =>
          let pos := Position.with_number num pos in
          '(segment, pos) <-
            (if negb (Position.init_sent pos) then
               s <- ask (rep_getInitSegment E r);;
               ret (s, match s with Some _ => pos | None => Position.incr pos end)
             else ret (None, pos));;
          '(segment, pos) <-
            (match segment with
             | None =>
                 if negb (Position.index_sent pos) then
                   ni <- ask (rep_needsIndex E r);;
                   s <- (if ni then ask (rep_getIndexSegment E r) else ret None);;
                   ret (s, match s with Some _ => pos | None => Position.incr pos end)
                 else ret (None, pos)
             | Some _ => ret (segment, pos)
             end);;
          let segment := match segment with Some s => s | None => datasegment end in
          ck <- call (seg_toChunk E segment cm (Position.number pos) r);;
          match ck with
          | None => ret ChunkEntry.default
          | Some segmentChunk =>
              displayTime <- ask (seg_getDisplayTime E datasegment);;
              td <- ask (rep_getPlaybackTimeDurationBySegmentNumber E r (Position.number pos));;
              let '(startTime, duration) :=
                match td with
                | Some (s, d) => (s + VLC_TS_0 E, d)
                | None => (VLC_TS_INVALID E, 0)
                end in
              ret (ChunkEntry.mk (Some segmentChunk) pos startTime duration displayTime)
          end
      end
  end.

(** [SegmentTracker::prepareChunk] *)
Definition prepareChunk (switch_allowed : bool) (pos : Position.t)
           (cm : ConnManager) : M W ChunkEntry.t :=
  t <- getTracker;;
  match adaptationSet t with
  | None => ret ChunkEntry.default
  | Some aset =>
      if negb (Position.isValid pos) then
        pos <- getStartPosition;;
        if negb (Position.isValid pos) then ret ChunkEntry.default
        else openChunk pos cm
      else
        pos <- continuePosition aset switch_allowed pos;;
        openChunk pos cm
  end.

(** [getNextChunk], lines 365-369: fill the one-slot queue when it is
    empty. *)
Definition fillChunksSequence (switch_allowed : bool) (cm : ConnManager) : M W unit :=
  t <- getTracker;;
  match chunkssequence t with
  | [] =>
      chunk <- prepareChunk switch_allowed (next t) cm;;
      modify (push_back chunk)
  | _ :: _ => ret tt
  end.

(** [getNextChunk], lines 403-419: the chunk's format, probed from its
    leading bytes when it is not declared, and the chunk to return. *)
Definition probeFormat (ck : SegmentChunk) : M W (StreamFormat * ChunkInterface) :=
  let chunkformat := streamFormat ck in
  if StreamFormat_eqb chunkformat Unknown then
    peeked <- call (chunk_peek E ck);;
    let chunkformat := StreamFormat_of_bytes E peeked in
    (if StreamFormat_eqb chunkformat Unknown then
       mime <- ask (chunk_getContentType E ck);;
       modify (set_format (StreamFormat_of_mime E mime))
     else ret tt);;
    ret (chunkformat, ProbeableChunk (setStreamFormat chunkformat ck))
  else ret (chunkformat, PlainChunk ck).

(** [getNextChunk], lines 390-397: announce a representation switch, then
    move both cursors to the position of the front entry. *)
Definition moveCursors (b_switched : bool) (from : option RepId) (p : Position.t)
  : M W unit :=
  (if b_switched then
     notify (RepresentationSwitchEvent from (Position.rep p));;
     modify (set_initializing true)
   else ret tt);;
  modify (set_current p);;
  modify (set_next p).

(** [getNextChunk], lines 421-426: record a new format and announce it. *)
Definition recordFormat (chunkformat : StreamFormat) : M W unit :=
  t <- getTracker;;
  if negb (StreamFormat_eqb chunkformat (format t))
     && negb (StreamFormat_eqb chunkformat Unknown) then
    modify (set_format chunkformat);;
    notify (FormatChangedEvent chunkformat)
  else ret tt.

(** [getNextChunk], lines 428-452: pop the entry, send the gap,
    discontinuity and segment notifications, step [next]. *)
Definition announceSegment (aset : AdaptSetId) (chunk : ChunkEntry.t)
           (b_gap b_discontinuity : bool) (discontinuitySequenceNumber : Z)
  : M W unit :=
  modify pop_front;;
  t <- getTracker;;
  b_gap <- (if initializing t then
              modify (set_initializing false);; ret false
            else ret b_gap);;
  when b_gap (notify SegmentGapEvent);;
  when b_discontinuity (notify (DiscontinuityEvent discontinuitySequenceNumber));;
  notify (SegmentChangedEvent aset discontinuitySequenceNumber
            (ChunkEntry.starttime chunk) (ChunkEntry.duration chunk)
            (ChunkEntry.displaytime chunk));;
  when (negb b_gap) (modify (fun t => set_next (Position.incr (next t)) t)).

(** [getNextChunk], lines 379-454: the front entry [chunk] is valid and
    [ck] is its chunk. *)
Definition deliver (aset : AdaptSetId) (chunk : ChunkEntry.t) (ck : SegmentChunk)
  : M W (option ChunkInterface) :=
  t <- getTracker;;
  let b_gap :=
    negb (Position.number (next t) =? Position.number (ChunkEntry.pos chunk)) in
  let b_switched :=
    negb (rep_eqb (Position.rep (next t)) (Position.rep (ChunkEntry.pos chunk)))
    || match Position.rep (current t) with Some _ => false | None => true end in
  let b_discontinuity := discontinuity ck && Position.isValid (current t) in
  let b_discontinuity :=
    if b_discontinuity && (Position.number (current t) =? Position.number (next t))
    then false else b_discontinuity in
  let discontinuitySequenceNumber := discontinuitySequenceNumber ck in
  moveCursors b_switched (Position.rep (next t)) (ChunkEntry.pos chunk);;
  t <- getTracker;;
  if StreamFormat_eqb (format t) Unsupported then ret None
  else
    '(chunkformat, returnedChunk) <- probeFormat ck;;
    recordFormat chunkformat;;
    announceSegment aset chunk b_gap b_discontinuity discontinuitySequenceNumber;;
    ret (Some returnedChunk).

(** [SegmentTracker::getNextChunk] *)
Definition getNextChunk (switch_allowed : bool) (cm : ConnManager)
  : M W (option ChunkInterface) :=
  t <- getTracker;;
  match adaptationSet t with
  | None => ret None
  | Some aset =>
      if negb (Position.isValid (next t)) then ret None
      else
        fillChunksSequence switch_allowed cm;;
        t <- getTracker;;
        match chunkssequence t with
        | [] => ret None        (* not reached: the queue was just filled *)
        | chunk :: _ =>
            match ChunkEntry.chunk chunk, ChunkEntry.isValid chunk with
            | Some ck, true => deliver aset chunk ck
            | c, _ =>
                modify pop_front;;
                deleteChunk c;;
                ret None
            end
        end
  end.

(** [SegmentTracker::getPlaybackTime] *)
Definition getPlaybackTime (b_next : bool) : M W Z :=
  t <- getTracker;;
  rep <- (match Position.rep (current t) with
          | Some r => ret (Some r)
          | None => call (logic_getNextRepresentation E (logic t) (adaptationSet t) None)
          end);;
  match rep with
  | Some r =>
      td <- ask (rep_getPlaybackTimeDurationBySegmentNumber E r
                   (if b_next then Position.number (next t)
                    else Position.number (current t)));;
      ret (match td with Some (time, _) => time | None => 0 end)
  | None => ret 0
  end.

(** [SegmentTracker::setPosition] *)
Definition setPosition (pos : Position.t) (restarted : bool) : M W unit :=
  when restarted (modify (set_initializing true));;
  modify (set_current Position.default);;
  modify (set_next pos);;
  resetChunksSequence;;
  time <- getPlaybackTime true;;
  notify (PositionChangedEvent time).

(** [SegmentTracker::setPositionByTime]; the [msg_Err] log line is not
    modelled. *)
Definition setPositionByTime (time : Z) (restarted tryonly : bool) : M W bool :=
  t <- getTracker;;
  let pos := Position.make (Position.rep (current t)) (Position.number (current t)) in
  rep <- (if negb (Position.isValid pos) then
            call (logic_getNextRepresentation E (logic t) (adaptationSet t) None)
          else ret (Position.rep pos));;
  match rep with
  | None => ret false
  | Some r =>
      nu <- ask (rep_needsUpdate E r (Position.number pos));;
      refreshed <-
        (if nu then
           ok <- call (rep_runLocalUpdates E r);;
           if negb ok then ret false
           else
             call_ (rep_scheduleNextUpdate E r (Position.number pos) true);;
             notify (RepresentationUpdatedEvent r);;
             ret true
         else ret true);;
      if negb refreshed then ret false
      else
        found <- ask (rep_getSegmentNumberByTime E r time);;
        match found with
        | Some n =>
            when (negb tryonly)
                 (setPosition (Position.with_number n (Position.make (Some r) (Position.number pos)))
                              restarted);;
            ret true
        | None => ret false
        end
  end.

(** [SegmentTracker::setStartPosition] *)
Definition setStartPosition : M W bool :=
  t <- getTracker;;
  if Position.isValid (next t) then ret true
  else
    pos <- getStartPosition;;
    if negb (Position.isValid pos) then ret false
    else modify (set_next pos);; ret true.

(** [SegmentTracker::getCurrentFormat]; the default-constructed
    [StreamFormat()] of the last line is declared outside this file and is
    taken as [Unknown]; no statement below reads that result. *)
Definition getCurrentFormat : M W StreamFormat :=
  t <- getTracker;;
  rep <- (match Position.rep (current t) with
          | Some r => ret (Some r)
          | None => call (logic_getNextRepresentation E (logic t) (adaptationSet t) None)
          end);;
  match rep with
  | Some r =>
      nu <- ask (rep_needsUpdate E r (Position.number (next t)));;
      (if nu then
         u <- call (rep_runLocalUpdates E r);;
         call_ (rep_scheduleNextUpdate E r (Position.number (next t)) u)
       else ret tt);;
      ask (rep_getStreamFormat E r)
  | None => ret Unknown
  end.

(** [SegmentTracker::getMinAheadTime] *)
Definition getMinAheadTime : M W Z :=
  t <- getTracker;;
  rep <- (match Position.rep (current t) with
          | Some r => ret (Some r)
          | None => call (logic_getNextRepresentation E (logic t) (adaptationSet t) None)
          end);;
  match rep with
  | Some r =>
      nu <- ask (rep_needsUpdate E r (Position.number (next t)));;
      (if nu then
         b_updated <- call (rep_runLocalUpdates E r);;
         call_ (rep_scheduleNextUpdate E r (Position.number (next t)) b_updated);;
         when b_updated (notify (RepresentationUpdatedEvent r))
       else ret tt);;
      startnumber <-
        (if Position.number (current t) =? uint64_max then
           ask (bl_getStartSegmentNumber E (bufferingLogic t) r)
         else ret (Position.number (current t)));;
      if negb (startnumber =? uint64_max) then ask (rep_getMinAheadTime E r startnumber)
      else ret 0
  | None => ret 0
  end.

(** [SegmentTracker::updateSelected] *)
Definition updateSelected : M W unit :=
  t <- getTracker;;
  match Position.rep (current t) with
  | Some r =>
      nu <- ask (rep_needsUpdate E r (Position.number (next t)));;
      (if nu then
         b_updated <- call (rep_runLocalUpdates E r);;
         call_ (rep_scheduleNextUpdate E r (Position.number (current t)) b_updated);;
         when b_updated (notify (RepresentationUpdatedEvent r))
       else ret tt);;
      gone <- ask (rep_canNoLongerUpdate E r);;
      when gone (notify (RepresentationUpdateFailedEvent r))
  | None => ret tt
  end.

(** [SegmentTracker::notifyBufferingState]; the source dereferences
    [adaptationSet] unchecked, a null one has no defined behaviour. *)
Definition notifyBufferingState (enabled : bool) : M W unit :=
  t <- getTracker;;
  match adaptationSet t with
  | Some aset => notify (BufferingStateUpdatedEvent aset enabled)
  | None => ret tt
  end.

(** [SegmentTracker::notifyBufferingLevel], with the same caveat. *)
Definition notifyBufferingLevel (min max cur target : Z) : M W unit :=
  t <- getTracker;;
  match adaptationSet t with
  | Some aset => notify (BufferingLevelChangedEvent aset min max cur target)
  | None => ret tt
  end.

(** [SegmentTracker::bufferingAvailable], with the same caveat. *)
Definition bufferingAvailable : M W bool :=
  t <- getTracker;;
  match adaptationSet t with
  | Some aset =>
      live <- ask (playlist_isLive E aset);;
      if live then a <- getMinAheadTime;; ret (0 <? a) else ret true
  | None => ret true
  end.

(** ** Sequences of calls on one tracker *)

Inductive Call :=
| CallGetNextChunk (switch_allowed : bool) (cm : ConnManager)
| CallSetPositionByTime (time : Z) (restarted tryonly : bool)
| CallSetPosition (pos : Position.t) (restarted : bool)
| CallSetStartPosition
| CallReset
| CallUpdateSelected
| CallGetCurrentFormat
| CallGetMinAheadTime
| CallGetPlaybackTime (b_next : bool)
| CallBufferingAvailable
| CallNotifyBufferingState (enabled : bool)
| CallNotifyBufferingLevel (min max cur target : Z)
| CallRegisterListener (l : ListenerId)
| CallSetAdaptationLogic (l : ListenerId)
| Elsewhere (f : W -> W).     (* the collaborators move on between calls *)

Definition isReset (c : Call) : bool :=
  match c with CallReset => true | _ => false end.

(** One call; the returned chunk is kept for [getNextChunk], other results
    are dropped. *)
Definition perform (c : Call) : M W (option ChunkInterface) :=
  match c with
  | CallGetNextChunk sw cm => getNextChunk sw cm
  | CallSetPositionByTime time r t => setPositionByTime time r t;; ret None
  | CallSetPosition pos r => setPosition pos r;; ret None
  | CallSetStartPosition => setStartPosition;; ret None
  | CallReset => reset;; ret None
  | CallUpdateSelected => updateSelected;; ret None
  | CallGetCurrentFormat => getCurrentFormat;; ret None
  | CallGetMinAheadTime => getMinAheadTime;; ret None
  | CallGetPlaybackTime b => getPlaybackTime b;; ret None
  | CallBufferingAvailable => bufferingAvailable;; ret None
  | CallNotifyBufferingState b => notifyBufferingState b;; ret None
  | CallNotifyBufferingLevel a b c d => notifyBufferingLevel a b c d;; ret None
  | CallRegisterListener l => registerListener l;; ret None
  | CallSetAdaptationLogic l => setAdaptationLogic l;; ret None
  | Elsewhere f => call_ f;; ret None
  end.

Fixpoint performAll (cs : list Call) : M W (list (option ChunkInterface)) :=
  match cs with
  | [] => ret []
  | c :: cs' =>
      r <- perform c;;
      rs <- performAll cs';;
      ret (r :: rs)
  end.

(** ** Reference descriptions used in the statements *)

(** The world once the switch candidate [c] has been brought up to date for
    segment [n] (lines 295-296). *)
Definition candidateRefreshed (c : RepId) (n : Z) (w : W) : W :=
  if rep_needsUpdate E c n w then
    rep_scheduleNextUpdate E c n (fst (rep_runLocalUpdates E c w))
                           (snd (rep_runLocalUpdates E c w))
  else w.

(** The segment number of [pos] in the numbering of [c]: translated, and
    translated once more after the refresh when the first answer was the
    sentinel. *)
Definition candidateNumber (c : RepId) (pos : Position.t) (w : W) : Z :=
  let n := rep_translateSegmentNumber E c (Position.number pos) (Position.rep pos) w in
  if n =? uint64_max then
    rep_translateSegmentNumber E c (Position.number pos) (Position.rep pos)
                               (candidateRefreshed c n w)
  else n.

(** What [getNextChunk] computes from the cursors and the front entry:
    whether the representation changed, whether a gap is reported, whether
    a discontinuity is reported. *)
Definition switchedOf (t : SegmentTracker) (chunk : ChunkEntry.t) : bool :=
  negb (rep_eqb (Position.rep (next t)) (Position.rep (ChunkEntry.pos chunk)))
  || match Position.rep (current t) with Some _ => false | None => true end.

Definition gapOf (t : SegmentTracker) (chunk : ChunkEntry.t) : bool :=
  negb (initializing t || switchedOf t chunk)
  && negb (Position.number (next t) =? Position.number (ChunkEntry.pos chunk)).

Definition discontinuityOf (t : SegmentTracker) (ck : SegmentChunk) : bool :=
  discontinuity ck && Position.isValid (current t)
  && negb (Position.number (current t) =? Position.number (next t)).

(** The outcome of a seek as the specification words it: no representation,
    or a failed refresh, is a failure; otherwise the answer is whether the
    representation maps the time to a segment number. *)
Definition seekOutcome (time : Z) (s : Sys W) : bool :=
  let t := trk s in
  let chosen :=
    if Position.isValid (current t) then (Position.rep (current t), world s)
    else logic_getNextRepresentation E (logic t) (adaptationSet t) None (world s) in
  match fst chosen with
  | None => false
  | Some r =>
      let w := snd chosen in
      if rep_needsUpdate E r (Position.number (current t)) w then
        if fst (rep_runLocalUpdates E r w) then
          let w2 := rep_scheduleNextUpdate E r (Position.number (current t)) true
                                           (snd (rep_runLocalUpdates E r w)) in
          let w3 := fold_left
                      (fun w l => listener_trackerEvent E l (RepresentationUpdatedEvent r) t w)
                      (listeners t) w2 in
          match rep_getSegmentNumberByTime E r time w3 with Some _ => true | None => false end
        else false
      else
        match rep_getSegmentNumberByTime E r time w with Some _ => true | None => false end
  end.

End Tracker.

(** ** A small concrete playlist

    Two representations, 1 and 2.  The world is the number of playlist
    refreshes done so far; a representation is stale until the first one. *)
Module Demo.

Definition World := nat.

Record Setup := {
  proposal : option RepId;       (* the adaptation logic's answer *)
  translated : World -> Z;       (* translateSegmentNumber *)
  ahead : Z;                     (* getMinAheadTime *)
  aligned : bool;                (* isSegmentAligned *)
  refresh_ok : bool;             (* runLocalUpdates *)
  corrected : Z -> Z;            (* number substituted by getNextMediaSegment *)
  declared : StreamFormat;       (* format carried by a fresh chunk *)
  sniffed : StreamFormat;        (* StreamFormat(p_peek, i_peek) *)
  by_mime : StreamFormat;        (* StreamFormat(getContentType()) *)
  flagged : bool;                (* discontinuity flag of the chunks *)
  by_time : option Z             (* getSegmentNumberByTime *)
}.

Definition env (c : Setup) : Env World :=
  {| logic_getNextRepresentation := fun _ _ _ w => (proposal c, w);
     bl_getStartSegmentNumber := fun _ _ _ => 10;
     set_isSegmentAligned := fun _ _ => aligned c;
     playlist_isLive := fun _ _ => true;
     rep_needsUpdate := fun _ _ w => Nat.eqb w 0;
     rep_runLocalUpdates := fun _ w => (refresh_ok c, S w);
     rep_scheduleNextUpdate := fun _ _ _ w => w;
     rep_canNoLongerUpdate := fun _ _ => false;
     rep_translateSegmentNumber := fun _ _ _ w => translated c w;
     rep_getMinAheadTime := fun _ _ _ => ahead c;
     rep_getNextMediaSegment := fun r n _ => Some (100%nat, corrected c n, false);
     rep_getInitSegment := fun _ _ => Some 1%nat;
     rep_getIndexSegment := fun _ _ => Some 2%nat;
     rep_needsIndex := fun _ _ => true;
     rep_getPlaybackTimeDurationBySegmentNumber := fun _ n _ => Some (n * 1000, 1000);
     rep_getSegmentNumberByTime := fun _ _ _ => by_time c;
     rep_getStreamFormat := fun _ _ => declared c;
     seg_toChunk := fun seg _ _ _ w =>
       (Some {| chunk_id := seg; discontinuity := flagged c;
                discontinuitySequenceNumber := 7; streamFormat := declared c |}, w);
     seg_getDisplayTime := fun _ _ => 0;
     chunk_peek := fun _ w => ([], w);
     chunk_getContentType := fun _ _ => "video/mp4"%string;
     chunk_delete := fun _ w => w;
     listener_trackerEvent := fun _ _ _ w => w;
     StreamFormat_of_bytes := fun _ => sniffed c;
     StreamFormat_of_mime := fun _ => by_mime c;
     VLC_TS_INVALID := 0;
     VLC_TS_0 := 1 |}.

(** Everything goes well: representation 1, chunks declared as codec 1. *)
Definition plain : Setup :=
  {| proposal := Some 1%nat; translated := fun _ => 10; ahead := 5000;
     aligned := true; refresh_ok := true; corrected := fun n => n;
     declared := Codec 1; sniffed := Codec 1; by_mime := Codec 1;
     flagged := false; by_time := Some 12 |}.

(** The playlist has moved on: every request is answered with segment 15,
    and the chunks carry a discontinuity flag. *)
Definition moved : Setup :=
  {| proposal := Some 1%nat; translated := fun _ => 10; ahead := 5000;
     aligned := true; refresh_ok := true; corrected := fun _ => 15;
     declared := Codec 1; sniffed := Codec 1; by_mime := Codec 1;
     flagged := true; by_time := Some 12 |}.

(** The logic proposes representation 2, which has nothing ahead. *)
Definition at_edge : Setup :=
  {| proposal := Some 2%nat; translated := fun _ => 20; ahead := 0;
     aligned := true; refresh_ok := true; corrected := fun n => n;
     declared := Codec 1; sniffed := Codec 1; by_mime := Codec 1;
     flagged := false; by_time := Some 12 |}.

(** The logic proposes representation 2, which cannot place the segment. *)
Definition untranslatable : Setup :=
  {| proposal := Some 2%nat; translated := fun _ => uint64_max; ahead := 5000;
     aligned := true; refresh_ok := true; corrected := fun n => n;
     declared := Codec 1; sniffed := Codec 1; by_mime := Codec 1;
     flagged := false; by_time := Some 12 |}.

(** Chunks declare no format, their first bytes tell nothing, their
    content type is that of codec 1. *)
Definition mime_only : Setup :=
  {| proposal := Some 1%nat; translated := fun _ => 10; ahead := 5000;
     aligned := true; refresh_ok := true; corrected := fun n => n;
     declared := Unknown; sniffed := Unknown; by_mime := Codec 1;
     flagged := false; by_time := Some 12 |}.

(** The logic proposes representation 2, and nothing speaks against it. *)
Definition inviting : Setup :=
  {| proposal := Some 2%nat; translated := fun _ => 20; ahead := 5000;
     aligned := true; refresh_ok := true; corrected := fun n => n;
     declared := Codec 1; sniffed := Codec 1; by_mime := Codec 1;
     flagged := false; by_time := Some 12 |}.

(** A fresh position on the last segment number that is not the sentinel. *)
Definition last_numbered : Position.t :=
  Position.make (Some 1%nat) (uint64_max - 1).

(** A new tracker on adaptation set 0 with logic 0. *)
Definition fresh : SegmentTracker := constructed 0%nat 0%nat (Some 0%nat).

(** Mid-stream on representation 1: segment 10 was handed out, 11 is
    next. *)
Definition streaming (f : StreamFormat) : SegmentTracker :=
  {| first := true; initializing := false;
     current := Position.mk (Some 1%nat) 10 true true;
     next := Position.mk (Some 1%nat) 11 true true;
     chunkssequence := [];
     logic := 0%nat; bufferingLogic := 0%nat; adaptationSet := Some 0%nat;
     listeners := [0%nat];
     format := f |}.

(** The same tracker on a playlist that has been refreshed once. *)
Definition midstream (f : StreamFormat) : Sys World := mkSys 1%nat (streaming f).

(** A new tracker on a playlist that was never loaded. *)
Definition cold : Sys World := mkSys 0%nat fresh.

(** Representation 1, segment 10, init segment sent, index segment not. *)
Definition before_index : Position.t := Position.mk (Some 1%nat) 10 true false.

End Demo.

(** ** Further methods and reference descriptions *)

(** A position whose index stage is not ahead of its init stage. *)
Definition stageOrdered (p : Position.t) : Prop :=
  Position.index_sent p = true -> Position.init_sent p = true.

(** The lookahead queue holds at most one entry, and holds one between two
    calls only on the dead end of an unsupported format. *)
Definition slotInvariant (t : SegmentTracker) : Prop :=
  (List.length (chunkssequence t) <= 1)%nat /\
  (chunkssequence t <> [] -> format t = Unsupported).

(** The fields no method assigns after construction. *)
Definition sameBinding (t t' : SegmentTracker) : Prop :=
  first t' = first t /\ bufferingLogic t' = bufferingLogic t /\
  adaptationSet t' = adaptationSet t.

Section Queries.

Context {W : Type} (E : Env W).
Local Open Scope tracker_scope.

(** [SegmentTracker::getMediaPlaybackRange]; the representation's method of
    that name is declared outside this file and comes as a parameter, its
    three out-parameters are the triple it returns on success. *)
Definition getMediaPlaybackRange
           (rep_getMediaPlaybackRange : RepId -> W -> option (Z * Z * Z))
  : M W (option (Z * Z * Z)) :=
  t <- getTracker;;
  match Position.rep (current t) with
  | None => ret None
  | Some r => ask (rep_getMediaPlaybackRange r)
  end.

(** The time [getPlaybackTime(true)] answers when [current] names no
    representation and [next] is on segment [n]: the logic is asked for a
    representation, and that one for the start of [n]. *)
Definition resumeTime (t : SegmentTracker) (n : Z) (w : W) : Z :=
  match fst (logic_getNextRepresentation E (logic t) (adaptationSet t) None w) with
  | Some r =>
      match rep_getPlaybackTimeDurationBySegmentNumber E r n
              (snd (logic_getNextRepresentation E (logic t) (adaptationSet t) None w)) with
      | Some (time, _) => time
      | None => 0
      end
  | None => 0
  end.

(** The tracker [setPosition] leaves behind. *)
Definition repositioned (pos : Position.t) (restarted : bool) (t : SegmentTracker)
  : SegmentTracker :=
  set_chunkssequence []
    (set_next pos
       (set_current Position.default
          (if restarted then set_initializing true t else t))).

End Queries.

(** * Properties *)

(** ** Pointer and format comparison *)

Lemma rep_eqb_eq a b : rep_eqb a b = true <-> a = b.
Proof.
  destruct a as [x|], b as [y|]; simpl; split; intro H;
    try discriminate; try reflexivity.
  - apply Nat.eqb_eq in H. now subst.
  - injection H as ->. apply Nat.eqb_refl.
Qed.

Lemma rep_eqb_refl a : rep_eqb a a = true.
Proof. now apply rep_eqb_eq. Qed.

Lemma StreamFormat_eqb_eq a b : StreamFormat_eqb a b = true <-> a = b.
Proof.
  destruct a as [| |x], b as [| |y]; simpl; split; intro H;
    try discriminate; try reflexivity.
  - apply Nat.eqb_eq in H. now subst.
  - injection H as ->. apply Nat.eqb_refl.
Qed.

Lemma StreamFormat_eqb_refl a : StreamFormat_eqb a a = true.
Proof. now apply StreamFormat_eqb_eq. Qed.

Lemma StreamFormat_eqb_neq a b : StreamFormat_eqb a b = false <-> a <> b.
Proof.
  rewrite <- StreamFormat_eqb_eq. destruct (StreamFormat_eqb a b); intuition congruence.
Qed.

(** ** Positions *)

Lemma Position_isValid_spec p :
  Position.isValid p = true <->
  Position.number p <> uint64_max /\ Position.rep p <> None.
Proof.
  unfold Position.isValid. rewrite andb_true_iff, negb_true_iff, Z.eqb_neq.
  destruct (Position.rep p); intuition congruence.
Qed.

Lemma Position_incr_invalid p : Position.isValid p = false -> Position.incr p = p.
Proof. unfold Position.incr. now intros ->. Qed.

Lemma Position_incr_rep p : Position.rep (Position.incr p) = Position.rep p.
Proof.
  unfold Position.incr.
  destruct (Position.isValid p), (Position.index_sent p), (Position.init_sent p); reflexivity.
Qed.

Lemma wrap_succ_neq n : (n + 1) mod 2 ^ 64 <> n.
Proof.
  intros H.
  pose proof (Z.div_mod (n + 1) (2 ^ 64) ltac:(lia)) as Hd.
  rewrite H in Hd. lia.
Qed.

(** An advance of a valid position always changes it. *)
Lemma Position_incr_neq p : Position.isValid p = true -> Position.incr p <> p.
Proof.
  intros Hv. unfold Position.incr. rewrite Hv.
  destruct p as [r n i x]; cbn [Position.rep Position.number Position.init_sent Position.index_sent].
  destruct x.
  - intros H. injection H as H. exact (wrap_succ_neq n H).
  - destruct i; discriminate.
Qed.

(** Flags are only ever raised by an advance. *)
Lemma Position_incr_flags_monotone p :
  (Position.init_sent p = true -> Position.init_sent (Position.incr p) = true) /\
  (Position.index_sent p = true -> Position.index_sent (Position.incr p) = true).
Proof.
  unfold Position.incr.
  destruct (Position.isValid p), (Position.index_sent p), (Position.init_sent p); simpl; auto.
Qed.

Lemma Position_incr_valid_unless_last p :
  Position.isValid p = true -> Position.in_range (Position.number p) ->
  Position.number p <> uint64_max - 1 -> Position.isValid (Position.incr p) = true.
Proof.
  intros Hv [Hlo Hhi] Hne.
  pose proof (proj1 (Position_isValid_spec p) Hv) as [Hn Hr].
  apply Position_isValid_spec. rewrite Position_incr_rep. split; [|assumption].
  unfold Position.incr. rewrite Hv.
  destruct (Position.index_sent p); [|destruct (Position.init_sent p); simpl; assumption].
  cbn [Position.number]. unfold uint64_max in *. rewrite Z.mod_small; lia.
Qed.

(** ** Which tracker fields a method can touch *)

Section Frames.

Context {W : Type} (E : Env W).

Lemma keeps_ret {A} P (a : A) : keeps P (@ret W A a).
Proof. intros s H. exact H. Qed.

Lemma keeps_bind {A B} P (m : M W A) (f : A -> M W B) :
  keeps P m -> (forall a, keeps P (f a)) -> keeps P (bind m f).
Proof.
  intros Hm Hf s H. unfold bind.
  specialize (Hm s H).
  destruct (m s) as [[a s1] l1]. cbn in Hm.
  specialize (Hf a s1 Hm).
  destruct (f a s1) as [[b s2] l2]. exact Hf.
Qed.

Lemma keeps_getTracker P : keeps P (@getTracker W).
Proof. intros s H. exact H. Qed.

Lemma keeps_call {A} P (f : W -> A * W) : keeps P (call f).
Proof. intros s H. exact H. Qed.

Lemma keeps_call_ P (f : W -> W) : keeps P (call_ f).
Proof. intros s H. exact H. Qed.

Lemma keeps_ask {A} P (f : W -> A) : keeps P (ask f).
Proof. intros s H. exact H. Qed.

Lemma keeps_notify P ev : keeps P (notify E ev).
Proof. intros s H. exact H. Qed.

Lemma keeps_modify P f : (forall t, P t -> P (f t)) -> keeps P (@modify W f).
Proof. intros Hf s H. apply Hf, H. Qed.

Lemma keeps_when P b m : keeps P m -> keeps P (@when W b m).
Proof. intros Hm. destruct b; [exact Hm | apply keeps_ret]. Qed.

End Frames.

(** Decompose a method body along its sequencing and its branches. *)
Ltac keeps_step :=
  first
    [ apply keeps_ret
    | apply keeps_getTracker
    | apply keeps_call
    | apply keeps_call_
    | apply keeps_ask
    | apply keeps_notify
    | apply keeps_when
    | apply keeps_bind; [ | intros ? ]
    | progress cbv zeta
    | match goal with
      | |- keeps _ (match ?x with _ => _ end) => destruct x
      | |- keeps _ (let '(_, _) := ?x in _) => destruct x
      end ].

Ltac keeps_auto := repeat keeps_step.

Section ConstMethods.

Context {W : Type} (E : Env W).
Variable P : SegmentTracker -> Prop.

(** The [const] methods leave every field as it is. *)

Lemma keeps_getStartPosition : keeps P (getStartPosition E).
Proof. unfold getStartPosition. keeps_auto. Qed.

Lemma keeps_switchCandidate pos : keeps P (switchCandidate E pos).
Proof. unfold switchCandidate. keeps_auto. Qed.

Lemma keeps_continuePosition aset sw pos : keeps P (continuePosition E aset sw pos).
Proof.
  unfold continuePosition. keeps_auto; try apply keeps_switchCandidate.
Qed.

Lemma keeps_openChunk pos cm : keeps P (openChunk E pos cm).
Proof. unfold openChunk. keeps_auto. Qed.

Lemma keeps_prepareChunk sw pos cm : keeps P (prepareChunk E sw pos cm).
Proof.
  unfold prepareChunk. keeps_auto;
    auto using keeps_getStartPosition, keeps_openChunk, keeps_continuePosition.
Qed.

Lemma keeps_getPlaybackTime b : keeps P (getPlaybackTime E b).
Proof. unfold getPlaybackTime. keeps_auto. Qed.

Lemma keeps_getCurrentFormat : keeps P (getCurrentFormat E).
Proof. unfold getCurrentFormat. keeps_auto. Qed.

Lemma keeps_getMinAheadTime : keeps P (getMinAheadTime E).
Proof. unfold getMinAheadTime. keeps_auto. Qed.

Lemma keeps_updateSelected : keeps P (updateSelected E).
Proof. unfold updateSelected. keeps_auto. Qed.

Lemma keeps_notifyBufferingState b : keeps P (notifyBufferingState E b).
Proof. unfold notifyBufferingState. keeps_auto. Qed.

Lemma keeps_notifyBufferingLevel a b c d : keeps P (notifyBufferingLevel E a b c d).
Proof. unfold notifyBufferingLevel. keeps_auto. Qed.

Lemma keeps_bufferingAvailable : keeps P (bufferingAvailable E).
Proof.
  unfold bufferingAvailable. keeps_auto; try apply keeps_getMinAheadTime.
Qed.

End ConstMethods.

(** ** Which notifications a method can send *)

Section Emissions.

Context {W : Type} (E : Env W).

Lemma emits_ret {A} Q (a : A) : emits Q (@ret W A a).
Proof. intros s. constructor. Qed.

Lemma emits_bind {A B} Q (m : M W A) (f : A -> M W B) :
  emits Q m -> (forall a, emits Q (f a)) -> emits Q (bind m f).
Proof.
  intros Hm Hf s. unfold bind.
  specialize (Hm s).
  destruct (m s) as [[a s1] l1]. cbn in Hm.
  specialize (Hf a s1).
  destruct (f a s1) as [[b s2] l2]. cbn in *.
  apply Forall_app. split; assumption.
Qed.

Lemma emits_getTracker Q : emits Q (@getTracker W).
Proof. intros s. constructor. Qed.

Lemma emits_call {A} Q (f : W -> A * W) : emits Q (call f).
Proof. intros s. constructor. Qed.

Lemma emits_call_ Q (f : W -> W) : emits Q (call_ f).
Proof. intros s. constructor. Qed.

Lemma emits_ask {A} Q (f : W -> A) : emits Q (ask f).
Proof. intros s. constructor. Qed.

Lemma emits_modify Q f : emits Q (@modify W f).
Proof. intros s. constructor. Qed.

Lemma emits_notify (Q : TrackerEvent -> Prop) ev : Q ev -> emits Q (notify E ev).
Proof. intros H s. repeat constructor. exact H. Qed.

Lemma emits_when Q b m : emits Q m -> emits Q (@when W b m).
Proof. intros Hm. destruct b; [exact Hm | apply emits_ret]. Qed.

End Emissions.

Ltac emits_step :=
  first
    [ apply emits_ret
    | apply emits_getTracker
    | apply emits_call
    | apply emits_call_
    | apply emits_ask
    | apply emits_modify
    | apply emits_notify; solve [ cbn; auto ]
    | apply emits_when
    | apply emits_bind; [ | intros ? ]
    | progress cbv zeta
    | match goal with
      | |- emits _ (match ?x with _ => _ end) => destruct x
      end ].

Ltac emits_auto := repeat emits_step.

(** Unfold the sequencing, then follow every branch of a method body. *)
Ltac run_m :=
  unfold bind, ret, getTracker, modify, call, call_, ask, notify, when.

Ltac split_m :=
  repeat (cbn in *;
          match goal with
          | |- context [if ?b then _ else _] => destruct b eqn:?
          | |- context [match ?x with Some _ => _ | None => _ end] => destruct x eqn:?
          end).

Section PrepareChunkFacts.

Context {W : Type} (E : Env W).

(** Preparing a chunk can only announce a refreshed representation. *)
Lemma emits_prepareChunk sw pos cm :
  emits isRepresentationUpdated (prepareChunk E sw pos cm).
Proof.
  unfold prepareChunk, getStartPosition, continuePosition, switchCandidate, openChunk.
  emits_auto.
Qed.

Lemma prepareChunk_trk sw pos cm s :
  trk (final (prepareChunk E sw pos cm s)) = trk s.
Proof. exact (keeps_prepareChunk E (fun t => t = trk s) sw pos cm s eq_refl). Qed.

End PrepareChunkFacts.

(** ** Sequencing *)

Lemma bind_inv {W A B} (m : M W A) (f : A -> M W B) s b s2 l :
  bind m f s = (b, s2, l) ->
  exists a s1 l1 l2,
    m s = (a, s1, l1) /\ f a s1 = (b, s2, l2) /\ l = l1 ++ l2.
Proof.
  unfold bind. destruct (m s) as [[a s1] l1].
  destruct (f a s1) as [[b' s2'] l2] eqn:Hf.
  intros H. injection H as <- <- <-. now exists a, s1, l1, l2.
Qed.

Lemma bind_eq {W A B} (m : M W A) (f : A -> M W B) s a s1 l1 :
  m s = (a, s1, l1) ->
  bind m f s = (result (f a s1), final (f a s1), l1 ++ sent (f a s1)).
Proof.
  intros H. unfold bind. rewrite H. now destruct (f a s1) as [[b s2] l2].
Qed.

Lemma triple_eta {W A} (r : A * Sys W * list Emitted) :
  r = (result r, final r, sent r).
Proof. now destruct r as [[a s] l]. Qed.

(** ** The steps of [getNextChunk] *)

Section DeliverFacts.

Context {W : Type} (E : Env W).

Lemma moveCursors_eq b from p s :
  moveCursors E b from p s =
  (tt,
   mkSys (if b then
            fold_left (fun w l => listener_trackerEvent E l
                                    (RepresentationSwitchEvent from (Position.rep p))
                                    (trk s) w)
                      (listeners (trk s)) (world s)
          else world s)
         (set_next p (set_current p
            (if b then set_initializing true (trk s) else trk s))),
   if b then [(RepresentationSwitchEvent from (Position.rep p), trk s)] else []).
Proof. destruct b; reflexivity. Qed.

(** Probing sends nothing and can only touch the recorded format. *)
Lemma probeFormat_inv ck s cf rc s2 l :
  probeFormat E ck s = (cf, rc, s2, l) ->
  l = [] /\
  (trk s2 = trk s \/ exists f, trk s2 = set_format f (trk s)) /\
  (wrapped rc = ck \/ exists f, wrapped rc = setStreamFormat f ck).
Proof.
  unfold probeFormat. run_m. split_m.
  all: intros H; injection H as <- <- <- <-; cbn.
  all: repeat split; eauto.
Qed.

Lemma recordFormat_eq cf s :
  recordFormat E cf s =
  if negb (StreamFormat_eqb cf (format (trk s))) && negb (StreamFormat_eqb cf Unknown)
  then
    (tt,
     mkSys (fold_left (fun w l => listener_trackerEvent E l (FormatChangedEvent cf)
                                    (set_format cf (trk s)) w)
                      (listeners (trk s)) (world s))
           (set_format cf (trk s)),
     [(FormatChangedEvent cf, set_format cf (trk s))])
  else (tt, s, []).
Proof.
  unfold recordFormat. run_m.
  destruct (negb (StreamFormat_eqb cf (format (trk s))) && negb (StreamFormat_eqb cf Unknown));
    reflexivity.
Qed.

Lemma set_initializing_off t :
  initializing t = false -> set_initializing false t = t.
Proof. destruct t; cbn; intros ->; reflexivity. Qed.

Lemma announceSegment_inv aset chunk b_gap b_disc dsn s s' l :
  announceSegment E aset chunk b_gap b_disc dsn s = (tt, s', l) ->
  let seen := set_initializing false (pop_front (trk s)) in
  let g := if initializing (trk s) then false else b_gap in
  trk s' = (if g then seen else set_next (Position.incr (next (trk s))) seen) /\
  l = (if g then [(SegmentGapEvent, seen)] else [])
      ++ (if b_disc then [(DiscontinuityEvent dsn, seen)] else [])
      ++ [(SegmentChangedEvent aset dsn (ChunkEntry.starttime chunk)
             (ChunkEntry.duration chunk) (ChunkEntry.displaytime chunk), seen)].
Proof.
  unfold announceSegment. run_m. cbn.
  destruct (initializing (trk s)) eqn:Hi, b_gap, b_disc; cbn.
  all: intros H; injection H as <- <-; cbn; split; try reflexivity.
  all: rewrite (set_initializing_off (pop_front (trk s)) Hi); reflexivity.
Qed.


(** The two ways through [deliver]: the dead end on an unsupported format,
    and the delivery. *)
Lemma deliver_cases aset chunk ck s b s' l :
  deliver E aset chunk ck s = (b, s', l) ->
  let t := trk s in
  let p := ChunkEntry.pos chunk in
  let t1 := set_next p (set_current p
              (if switchedOf t chunk then set_initializing true t else t)) in
  let l1 := if switchedOf t chunk
            then [(RepresentationSwitchEvent (Position.rep (next t)) (Position.rep p), t)]
            else [] in
  (format t = Unsupported /\ b = None /\ trk s' = t1 /\ l = l1)
  \/
  (format t <> Unsupported /\
   exists rc t2 lf,
     b = Some rc /\
     (wrapped rc = ck \/ exists f, wrapped rc = setStreamFormat f ck) /\
     (t2 = t1 \/ exists f, t2 = set_format f t1) /\
     Forall (fun e => isFormatChanged (fst e) = true /\
                      exists f, snd e = set_format f t1) lf /\
     let seen := set_initializing false (pop_front t2) in
     trk s' = (if gapOf t chunk then seen else set_next (Position.incr p) seen) /\
     l = l1 ++ lf
         ++ (if gapOf t chunk then [(SegmentGapEvent, seen)] else [])
         ++ (if discontinuityOf t ck
             then [(DiscontinuityEvent (discontinuitySequenceNumber ck), seen)] else [])
         ++ [(SegmentChangedEvent aset (discontinuitySequenceNumber ck)
                (ChunkEntry.starttime chunk) (ChunkEntry.duration chunk)
                (ChunkEntry.displaytime chunk), seen)]).
Proof.
  intros H. cbv zeta.
  remember (switchedOf (trk s) chunk) as sw eqn:Hsw.
  remember (gapOf (trk s) chunk) as g eqn:Hg.
  remember (discontinuityOf (trk s) ck) as d eqn:Hd.
  unfold gapOf in Hg. rewrite <- Hsw in Hg.
  unfold switchedOf in Hsw. unfold discontinuityOf in Hd.
  unfold deliver in H.
  apply bind_inv in H as (t0 & s0 & l0 & l0' & Hget & H & ->).
  unfold getTracker in Hget. injection Hget as <- <- <-.
  cbv zeta in H. rewrite <- Hsw in H.
  apply bind_inv in H as ([] & sa & la & la' & Hmove & H & ->).
  rewrite moveCursors_eq in Hmove. injection Hmove as <- <-.
  apply bind_inv in H as (ta & sb & lb & lb' & Hget & H & ->).
  unfold getTracker in Hget. injection Hget as <- <- <-.
  cbn [trk] in H.
  set (t1 := set_next (ChunkEntry.pos chunk) (set_current (ChunkEntry.pos chunk)
               (if sw then set_initializing true (trk s) else trk s))) in *.
  assert (Hfmt : format t1 = format (trk s)).
  { unfold t1. destruct sw; reflexivity. }
  rewrite Hfmt in H.
  destruct (StreamFormat_eqb (format (trk s)) Unsupported) eqn:Hu.
  - left. apply StreamFormat_eqb_eq in Hu.
    unfold ret in H. injection H as <- <- <-.
    cbn. rewrite ?app_nil_r. auto.
  - right. apply StreamFormat_eqb_neq in Hu. split; [exact Hu|].
    apply bind_inv in H as ([cf rc] & sc & lc & lc' & Hprobe & H & ->).
    apply probeFormat_inv in Hprobe as (-> & Hsc & Hrc).
    apply bind_inv in H as ([] & sd & ld & ld' & Hrec & H & ->).
    rewrite recordFormat_eq in Hrec.
    apply bind_inv in H as ([] & se & le & le' & Hann & H & ->).
    unfold ret in H. injection H as <- <- <-.
    apply announceSegment_inv in Hann. cbv zeta in Hann.
    destruct Hann as [Ht' ->].
    exists rc, (trk sd), ld. cbn [trk] in Hsc.
    assert (Hsd : (trk sd = t1 \/ exists f, trk sd = set_format f t1) /\
                  Forall (fun e => isFormatChanged (fst e) = true /\
                                   exists f, snd e = set_format f t1) ld).
    { destruct (negb (StreamFormat_eqb cf (format (trk sc)))
                && negb (StreamFormat_eqb cf Unknown));
        injection Hrec as <- <-; cbn [trk].
      - split.
        + right. exists cf. destruct Hsc as [-> | [f ->]]; reflexivity.
        + repeat constructor. cbn. exists cf.
          destruct Hsc as [-> | [f ->]]; reflexivity.
      - split; [exact Hsc | constructor]. }
    destruct Hsd as [Hsd Hld].
    assert (Hinit : initializing (trk sd) = initializing (trk s) || sw).
    { unfold t1 in Hsd.
      destruct Hsd as [-> | [f ->]]; destruct sw; cbn;
        rewrite ?orb_true_r, ?orb_false_r; reflexivity. }
    assert (Hnext : next (trk sd) = ChunkEntry.pos chunk).
    { destruct Hsd as [-> | [f ->]]; reflexivity. }
    assert (Hgap : (if initializing (trk sd) then false
                    else negb (Position.number (next (trk s))
                               =? Position.number (ChunkEntry.pos chunk)))
                   = g).
    { rewrite Hinit, Hg.
      destruct (initializing (trk s) || sw); reflexivity. }
    assert (Hdisc : (if discontinuity ck && Position.isValid (current (trk s))
                        && (Position.number (current (trk s))
                            =? Position.number (next (trk s)))
                     then false
                     else discontinuity ck && Position.isValid (current (trk s)))
                    = d).
    { rewrite Hd.
      destruct (discontinuity ck), (Position.isValid (current (trk s))),
               (Position.number (current (trk s)) =? Position.number (next (trk s)));
        reflexivity. }
    rewrite Hgap, Hnext in Ht'. rewrite Hgap, Hdisc.
    repeat split; try assumption.
    cbn. rewrite ?app_nil_r, <- ?app_assoc. reflexivity.
Qed.

End DeliverFacts.

Section GetNextChunkFacts.

Context {W : Type} (E : Env W).

(** Filling the queue touches no other field, leaves the queue non-empty
    and can only announce a refreshed representation. *)
Lemma fillChunksSequence_inv sw cm s u s1 l1 :
  fillChunksSequence E sw cm s = (u, s1, l1) ->
  (exists q, trk s1 = set_chunkssequence q (trk s)) /\
  chunkssequence (trk s1) <> [] /\
  Forall (fun e => isRepresentationUpdated (fst e)) l1.
Proof.
  unfold fillChunksSequence. intros H.
  apply bind_inv in H as (t & s0 & l0 & l0' & Hget & H & ->).
  unfold getTracker in Hget. injection Hget as <- <- <-.
  destruct (chunkssequence (trk s)) as [|e q] eqn:Hq.
  - apply bind_inv in H as (c & sa & la & la' & Hprep & H & ->).
    unfold modify in H. injection H as <- <- <-.
    pose proof (prepareChunk_trk E sw (next (trk s)) cm s) as Htrk.
    pose proof (emits_prepareChunk E sw (next (trk s)) cm s) as Hem.
    rewrite Hprep in Htrk, Hem. cbn in Htrk, Hem. cbn [trk].
    rewrite Htrk. repeat split.
    + eexists. reflexivity.
    + cbn. rewrite Hq. discriminate.
    + cbn. rewrite app_nil_r. exact Hem.
  - unfold ret in H. injection H as <- <- <-. repeat split.
    + exists (chunkssequence (trk s)). now destruct (trk s).
    + rewrite Hq. discriminate.
    + constructor.
Qed.

(** The ways through [getNextChunk]. *)
Lemma getNextChunk_cases sw cm s b s' l :
  getNextChunk E sw cm s = (b, s', l) ->
  (b = None /\ s' = s /\ l = [] /\
   (adaptationSet (trk s) = None \/ Position.isValid (next (trk s)) = false))
  \/
  exists aset u s1 l1 entry,
    adaptationSet (trk s) = Some aset /\
    Position.isValid (next (trk s)) = true /\
    fillChunksSequence E sw cm s = (u, s1, l1) /\
    hd_error (chunkssequence (trk s1)) = Some entry /\
    ((ChunkEntry.isValid entry = false /\ b = None /\
      trk s' = pop_front (trk s1) /\ l = l1)
     \/
     (exists ck l2,
        ChunkEntry.isValid entry = true /\ ChunkEntry.chunk entry = Some ck /\
        deliver E aset entry ck s1 = (b, s', l2) /\ l = l1 ++ l2)).
Proof.
  unfold getNextChunk. intros H.
  apply bind_inv in H as (t & s0 & l0 & l0' & Hget & H & ->).
  unfold getTracker in Hget. injection Hget as <- <- <-.
  destruct (adaptationSet (trk s)) as [aset|] eqn:Ha.
  2:{ left. unfold ret in H. injection H as <- <- <-. auto. }
  destruct (Position.isValid (next (trk s))) eqn:Hv; cbn [negb] in H.
  2:{ left. unfold ret in H. injection H as <- <- <-. auto. }
  right.
  apply bind_inv in H as (u & s1 & l1 & l1' & Hfill & H & ->).
  apply bind_inv in H as (t1 & s1' & l2 & l2' & Hget & H & ->).
  unfold getTracker in Hget. injection Hget as <- <- <-.
  pose proof (fillChunksSequence_inv _ _ _ _ _ _ Hfill) as (_ & Hne & _).
  destruct (chunkssequence (trk s1)) as [|entry q] eqn:Hq; [congruence|].
  exists aset, u, s1, l1, entry.
  repeat (split; [solve [auto] |]).
  split; [rewrite Hq; reflexivity|].
  destruct (ChunkEntry.chunk entry) as [ck|] eqn:Hck.
  - destruct (ChunkEntry.isValid entry) eqn:Hev.
    + right. exists ck, l2'. cbn. auto.
    + left. revert H. unfold deleteChunk. run_m. cbn.
      intros H. injection H as <- <- <-. cbn. rewrite app_nil_r. auto.
  - left. assert (Hev : ChunkEntry.isValid entry = false).
    { unfold ChunkEntry.isValid. now rewrite Hck. }
    revert H. unfold deleteChunk. run_m. cbn.
    intros H. injection H as <- <- <-. cbn. rewrite app_nil_r. auto.
Qed.

End GetNextChunkFacts.

(** ** The advance of a position *)

(** C2, counterexample: on the fresh valid position numbered 2^64 - 2 the
    third advance reaches the sentinel number, the position is no longer
    valid, and the fourth advance leaves the number where it is instead of
    adding one to it. *)
Lemma Position_advance_last_number :
  Position.isValid Demo.last_numbered = true /\
  Position.init_sent Demo.last_numbered = false /\
  Position.index_sent Demo.last_numbered = false /\
  Position.isValid
    (Position.incr (Position.incr (Position.incr Demo.last_numbered))) = false /\
  Position.number
    (Position.incr (Position.incr (Position.incr (Position.incr Demo.last_numbered))))
  = Position.number Demo.last_numbered + 1 /\
  Position.number
    (Position.incr (Position.incr (Position.incr (Position.incr Demo.last_numbered))))
  <> (Position.number Demo.last_numbered + 2) mod 2 ^ 64.
Proof. repeat split; try reflexivity. vm_compute. discriminate. Qed.

(** C2, amended: from a fresh valid position whose number is below 2^64 - 2,
    the advances go init_sent, then index_sent, then the number: three
    advances give both flags and start + 1, a fourth gives start + 2 with both
    flags still set; and no advance of any position ever clears a flag. *)
Theorem Position_advance_stages (p : Position.t) :
  Position.isValid p = true ->
  Position.init_sent p = false ->
  Position.index_sent p = false ->
  Position.in_range (Position.number p) ->
  Position.number p <> uint64_max - 1 ->
  Position.incr p = Position.mk (Position.rep p) (Position.number p) true false /\
  Position.incr (Position.incr p)
  = Position.mk (Position.rep p) (Position.number p) true true /\
  Position.incr (Position.incr (Position.incr p))
  = Position.mk (Position.rep p) (Position.number p + 1) true true /\
  Position.incr (Position.incr (Position.incr (Position.incr p)))
  = Position.mk (Position.rep p) (Position.number p + 2) true true /\
  (forall q,
     (Position.init_sent q = true -> Position.init_sent (Position.incr q) = true) /\
     (Position.index_sent q = true -> Position.index_sent (Position.incr q) = true)).
Proof.
  intros Hv Hi Hx [Hlo Hhi] Hlast.
  destruct p as [r n i x].
  cbn [Position.number Position.rep Position.init_sent Position.index_sent] in *.
  subst i x.
  pose proof (proj1 (Position_isValid_spec _) Hv) as [Hn _].
  cbn [Position.number] in Hn.
  assert (Hvalid : forall a b m, m <> uint64_max ->
                     Position.isValid (Position.mk r m a b) = true).
  { intros a b m Hm. apply Position_isValid_spec. split; [exact Hm|].
    apply Position_isValid_spec in Hv. apply Hv. }
  assert (H1 : Position.incr (Position.mk r n false false)
               = Position.mk r n true false).
  { unfold Position.incr. now rewrite Hv. }
  assert (H2 : Position.incr (Position.mk r n true false)
               = Position.mk r n true true).
  { unfold Position.incr. rewrite Hvalid; [reflexivity|].
    apply Position_isValid_spec in Hv. apply Hv. }
  assert (H3 : Position.incr (Position.mk r n true true)
               = Position.mk r (n + 1) true true).
  { unfold Position.incr. rewrite Hvalid.
    - cbn [Position.number Position.rep Position.init_sent Position.index_sent].
      f_equal. apply Z.mod_small. unfold uint64_max in *. lia.
    - apply Position_isValid_spec in Hv. apply Hv. }
  assert (H4 : Position.incr (Position.mk r (n + 1) true true)
               = Position.mk r (n + 2) true true).
  { unfold Position.incr. rewrite Hvalid by lia.
    cbn [Position.number Position.rep Position.init_sent Position.index_sent].
    f_equal. replace (n + 1 + 1) with (n + 2) by lia.
    apply Z.mod_small. unfold uint64_max in *. lia. }
  rewrite H1, H2, H3, H4. repeat split; try reflexivity.
  all: apply Position_incr_flags_monotone.
Qed.

Lemma Position_advance_stages_witness :
  Position.isValid (Position.make (Some 1%nat) 10) = true /\
  Position.incr (Position.incr (Position.incr (Position.make (Some 1%nat) 10)))
  = Position.mk (Some 1%nat) 11 true true /\
  Position.incr (Position.incr (Position.incr (Position.incr
    (Position.make (Some 1%nat) 10))))
  = Position.mk (Some 1%nat) 12 true true.
Proof.
  split; [reflexivity|].
  assert (Hr : Position.in_range 10) by (unfold Position.in_range, uint64_max; lia).
  assert (Hl : 10 <> uint64_max - 1) by (unfold uint64_max; lia).
  destruct (Position_advance_stages (Position.make (Some 1%nat) 10)
              eq_refl eq_refl eq_refl Hr Hl) as (_ & _ & H3 & H4 & _).
  exact (conj H3 H4).
Defined.

(** ** Reset *)

Section ResetFacts.

Context {W : Type} (E : Env W).

Lemma skipn_tl {A} n (l : list A) : skipn n (tl l) = skipn (S n) l.
Proof. destruct l; [now destruct n | reflexivity]. Qed.

(** Emptying the queue sends nothing and touches no other field. *)
Lemma deleteAll_spec q s :
  sent (deleteAll E q s) = [] /\
  trk (final (deleteAll E q s))
  = set_chunkssequence (skipn (List.length q) (chunkssequence (trk s))) (trk s).
Proof.
  revert s. induction q as [|e q IH]; intros s.
  - cbn. split; [reflexivity|]. now destruct (trk s).
  - cbn [deleteAll].
    assert (Hhead : forall c, exists w,
               deleteChunk E c s = (tt, mkSys w (trk s), [])).
    { intros [ck|]; [eexists; reflexivity|].
      exists (world s). cbn. now destruct s. }
    destruct (Hhead (ChunkEntry.chunk e)) as [w Hw].
    rewrite (bind_eq _ _ _ _ _ _ Hw).
    assert (Hpop : @modify W pop_front (mkSys w (trk s))
                   = (tt, mkSys w (pop_front (trk s)), [])) by reflexivity.
    rewrite (bind_eq _ _ _ _ _ _ Hpop).
    destruct (IH (mkSys w (pop_front (trk s)))) as [IHs IHt].
    cbn [result final sent fst snd app]. rewrite IHs, IHt. split; [reflexivity|].
    cbn [trk pop_front chunkssequence set_chunkssequence List.length].
    rewrite skipn_tl. reflexivity.
Qed.

Lemma resetChunksSequence_spec s :
  sent (resetChunksSequence E s) = [] /\
  trk (final (resetChunksSequence E s)) = set_chunkssequence [] (trk s).
Proof.
  unfold resetChunksSequence.
  assert (Hget : @getTracker W s = (trk s, s, [])) by reflexivity.
  rewrite (bind_eq _ _ _ _ _ _ Hget).
  destruct (deleteAll_spec (chunkssequence (trk s)) s) as [Hs Ht].
  cbn [result final sent fst snd app]. rewrite Hs, Ht, skipn_all. auto.
Qed.

Lemma keeps_resetChunksSequence (P : SegmentTracker -> Prop) :
  (forall t q, P t -> P (set_chunkssequence q t)) ->
  keeps P (resetChunksSequence E).
Proof.
  intros HP s H. rewrite (proj2 (resetChunksSequence_spec s)). now apply HP.
Qed.

(** What [reset] sends and what it leaves behind. *)
Lemma reset_spec (s : Sys W) :
  sent (reset E s)
  = [(RepresentationSwitchEvent (Position.rep (current (trk s))) None, trk s)] /\
  current (trk (final (reset E s))) = Position.default /\
  next (trk (final (reset E s))) = Position.default /\
  chunkssequence (trk (final (reset E s))) = [] /\
  format (trk (final (reset E s))) = Unknown /\
  initializing (trk (final (reset E s))) = true.
Proof.
  unfold reset.
  assert (Hget : @getTracker W s = (trk s, s, [])) by reflexivity.
  rewrite (bind_eq _ _ _ _ _ _ Hget).
  set (ev := RepresentationSwitchEvent (Position.rep (current (trk s))) None).
  rewrite (bind_eq _ _ _ _ _ _ (eq_refl : notify E ev s = (tt, _, _))).
  rewrite (bind_eq _ _ _ _ _ _ (eq_refl : modify (set_current Position.default) _ = (tt, _, _))).
  rewrite (bind_eq _ _ _ _ _ _ (eq_refl : modify (set_next Position.default) _ = (tt, _, _))).
  cbn [result final sent fst snd world trk].
  match goal with
  | |- context [bind (resetChunksSequence E) _ ?x] =>
      destruct (resetChunksSequence_spec x) as [Hs Ht];
      rewrite (bind_eq _ _ _ _ _ _ (triple_eta (resetChunksSequence E x)))
  end.
  cbn [result final sent fst snd app bind modify ret trk world] in *.
  rewrite Hs, Ht.
  cbn. repeat split; reflexivity.
Qed.

Lemma reset_initializing (s : Sys W) : initializing (trk (final (reset E s))) = true.
Proof. apply reset_spec. Qed.

(** C10: [reset], and with it the destructor, sends exactly one
    notification, a RepresentationSwitch from the current representation
    (null when none was ever selected) to null; the listeners see it while
    the tracker's fields are still untouched, and only then are both
    cursors, the queued chunk and the recorded format cleared and the
    tracker put back in its initializing state. *)
Theorem reset_notifies_switch (s : Sys W) :
  sent (reset E s)
  = [(RepresentationSwitchEvent (Position.rep (current (trk s))) None, trk s)] /\
  current (trk (final (reset E s))) = Position.default /\
  next (trk (final (reset E s))) = Position.default /\
  chunkssequence (trk (final (reset E s))) = [] /\
  format (trk (final (reset E s))) = Unknown /\
  initializing (trk (final (reset E s))) = true /\
  destroy E s = reset E s.
Proof.
  destruct (reset_spec s) as (Hsent & Hcur & Hnext & Hq & Hfmt & Hinit).
  repeat split; assumption || reflexivity.
Qed.

End ResetFacts.

(** ** A successful [getNextChunk] *)

Section Delivery.

Context {W : Type} (E : Env W).

Lemma filter_prelude (f : TrackerEvent -> bool) (l : list Emitted) :
  (forall e, isPrelude e = true -> f e = false) ->
  Forall (fun e => isPrelude (fst e) = true) l ->
  filter f (events l) = [].
Proof.
  intros Hf. induction 1 as [|e l He _ IH]; [reflexivity|].
  cbn. rewrite (Hf _ He). exact IH.
Qed.

(** What a call that hands out a chunk has done: the front entry of the
    filled queue was valid, the cursors went to its position, the
    notifications end with the optional gap, the optional discontinuity and
    the segment change, all sent with the cursors on that position, and
    [next] was stepped unless a gap was reported. *)
Lemma getNextChunk_Some sw cm s r s' l :
  getNextChunk E sw cm s = (Some r, s', l) ->
  exists aset entry ck seen lpre,
    adaptationSet (trk s) = Some aset /\
    Position.isValid (next (trk s)) = true /\
    format (trk s) <> Unsupported /\
    hd_error (chunkssequence (trk (final (fillChunksSequence E sw cm s)))) = Some entry /\
    ChunkEntry.isValid entry = true /\
    ChunkEntry.chunk entry = Some ck /\
    (wrapped r = ck \/ exists f, wrapped r = setStreamFormat f ck) /\
    current seen = ChunkEntry.pos entry /\
    next seen = ChunkEntry.pos entry /\
    initializing seen = false /\
    trk s' = (if gapOf (trk s) entry then seen
              else set_next (Position.incr (ChunkEntry.pos entry)) seen) /\
    Forall (fun e => isPrelude (fst e) = true) lpre /\
    l = lpre
        ++ (if gapOf (trk s) entry then [(SegmentGapEvent, seen)] else [])
        ++ (if discontinuityOf (trk s) ck
            then [(DiscontinuityEvent (discontinuitySequenceNumber ck), seen)] else [])
        ++ [(SegmentChangedEvent aset (discontinuitySequenceNumber ck)
               (ChunkEntry.starttime entry) (ChunkEntry.duration entry)
               (ChunkEntry.displaytime entry), seen)].
Proof.
  intros H. apply getNextChunk_cases in H.
  destruct H as [(Hb & _) | H]; [discriminate|].
  destruct H as (aset & u & s1 & l1 & entry & Ha & Hv & Hfill & Hhd & H).
  destruct H as [(_ & Hb & _) | (ck & l2 & Hev & Hck & Hdel & ->)]; [discriminate|].
  pose proof (fillChunksSequence_inv _ _ _ _ _ _ _ Hfill) as ([q Hq] & _ & Hl1).
  apply deliver_cases in Hdel. cbv zeta in Hdel.
  destruct Hdel as [(_ & Hb & _) | (Hfmt & rc & t2 & lf & Hb & Hrc & Ht2 & Hlf & Ht' & ->)];
    [discriminate|].
  injection Hb as <-.
  assert (Hgap : gapOf (trk s1) entry = gapOf (trk s) entry) by now rewrite Hq.
  assert (Hdisc : discontinuityOf (trk s1) ck = discontinuityOf (trk s) ck)
    by now rewrite Hq.
  rewrite Hgap in *. rewrite Hdisc.
  exists aset, entry, ck, (set_initializing false (pop_front t2)).
  exists (l1 ++ (if switchedOf (trk s1) entry
                 then [(RepresentationSwitchEvent (Position.rep (next (trk s1)))
                          (Position.rep (ChunkEntry.pos entry)), trk s1)]
                 else []) ++ lf).
  rewrite Hfill. cbn [final fst snd].
  repeat (split; [first [assumption | now rewrite Hq in Hfmt] |]).
  split; [destruct Ht2 as [-> | [f ->]]; reflexivity|].
  split; [destruct Ht2 as [-> | [f ->]]; reflexivity|].
  split; [reflexivity|].
  split; [exact Ht'|].
  split.
  - apply Forall_app. split.
    + eapply Forall_impl; [|exact Hl1]. intros [[] ?]; cbn; tauto.
    + apply Forall_app. split.
      * destruct (switchedOf (trk s1) entry); repeat constructor.
      * eapply Forall_impl; [|exact Hlf]. intros [[] ?]; cbn; intuition congruence.
  - repeat rewrite <- app_assoc. reflexivity.
Qed.


Lemma events_app (l1 l2 : list Emitted) : events (l1 ++ l2) = events l1 ++ events l2.
Proof. apply map_app. Qed.

Lemma In_events_after_prelude ev (lpre tail : list Emitted) :
  Forall (fun e => isPrelude (fst e) = true) lpre ->
  isPrelude ev = false ->
  In ev (events (lpre ++ tail)) <-> In ev (events tail).
Proof.
  intros Hpre Hev. rewrite events_app, in_app_iff. split; [|tauto].
  intros [H | H]; [|exact H]. exfalso.
  unfold events in H. apply in_map_iff in H as (e & <- & Hin).
  rewrite Forall_forall in Hpre. specialize (Hpre _ Hin). congruence.
Qed.

Lemma wrapped_flags r ck :
  (wrapped r = ck \/ exists f, wrapped r = setStreamFormat f ck) ->
  chunk_id (wrapped r) = chunk_id ck /\
  discontinuity (wrapped r) = discontinuity ck /\
  discontinuitySequenceNumber (wrapped r) = discontinuitySequenceNumber ck.
Proof. intros [-> | [f ->]]; auto. Qed.

(** C1: when [getNextChunk] returns a chunk, the front entry of the queue
    was valid and the chunk is that entry's; the tracker's position
    [current] is valid and equal to the entry's position on return; the
    segment notification of the call is sent while [current] and [next] are
    both that position; and on return [next] is that position stepped once
    exactly when the call reported no gap, and that position itself
    otherwise (so [next] is valid as well, except after the last segment
    number below the sentinel). *)
Theorem getNextChunk_cursors sw cm (s : Sys W) (r : ChunkInterface) :
  result (getNextChunk E sw cm s) = Some r ->
  exists entry ck seen ev,
    hd_error (chunkssequence (trk (final (fillChunksSequence E sw cm s)))) = Some entry /\
    ChunkEntry.isValid entry = true /\
    ChunkEntry.chunk entry = Some ck /\
    chunk_id (wrapped r) = chunk_id ck /\
    Position.isValid (current (trk (final (getNextChunk E sw cm s)))) = true /\
    current (trk (final (getNextChunk E sw cm s))) = ChunkEntry.pos entry /\
    In (ev, seen) (sent (getNextChunk E sw cm s)) /\
    isSegmentChanged ev = true /\
    current seen = ChunkEntry.pos entry /\
    next seen = ChunkEntry.pos entry /\
    (next (trk (final (getNextChunk E sw cm s))) = Position.incr (ChunkEntry.pos entry)
     <-> ~ In SegmentGapEvent (events (sent (getNextChunk E sw cm s)))) /\
    (In SegmentGapEvent (events (sent (getNextChunk E sw cm s))) ->
     next (trk (final (getNextChunk E sw cm s))) = ChunkEntry.pos entry) /\
    (Position.in_range (Position.number (ChunkEntry.pos entry)) ->
     Position.number (ChunkEntry.pos entry) <> uint64_max - 1 ->
     Position.isValid (next (trk (final (getNextChunk E sw cm s)))) = true).
Proof.
  intros Hr.
  destruct (getNextChunk E sw cm s) as [[b s'] l] eqn:H.
  cbn [result final sent fst snd] in *. subst b.
  apply getNextChunk_Some in H.
  destruct H as (aset & entry & ck & seen & lpre & _ & _ & _ & Hhd & Hev & Hck
                 & Hrc & Hcur & Hnext & _ & Ht' & Hpre & ->).
  assert (Hpv : Position.isValid (ChunkEntry.pos entry) = true).
  { unfold ChunkEntry.isValid in Hev. now apply andb_true_iff in Hev. }
  assert (Hgap : In SegmentGapEvent
                   (events (lpre ++
                      (if gapOf (trk s) entry then [(SegmentGapEvent, seen)] else []) ++
                      (if discontinuityOf (trk s) ck
                       then [(DiscontinuityEvent (discontinuitySequenceNumber ck), seen)]
                       else []) ++
                      [(SegmentChangedEvent aset (discontinuitySequenceNumber ck)
                          (ChunkEntry.starttime entry) (ChunkEntry.duration entry)
                          (ChunkEntry.displaytime entry), seen)]))
                 <-> gapOf (trk s) entry = true).
  { rewrite In_events_after_prelude by (assumption || reflexivity).
    destruct (gapOf (trk s) entry), (discontinuityOf (trk s) ck); cbn;
      intuition congruence. }
  assert (Hcur' : current (trk s') = ChunkEntry.pos entry).
  { rewrite Ht'. now destruct (gapOf (trk s) entry). }
  exists entry, ck, seen.
  eexists (SegmentChangedEvent aset _ _ _ _).
  repeat (split; [first [assumption | reflexivity
                        | apply (wrapped_flags _ _ Hrc)
                        | now rewrite Hcur'] |]).
  split.
  { rewrite !in_app_iff. right. right. right. left. reflexivity. }
  repeat (split; [first [assumption | reflexivity] |]).
  rewrite Hgap, Ht'.
  destruct (gapOf (trk s) entry); cbn [next set_next].
  - rewrite Hnext. split; [|split].
    + split; [|intros Hn; now contradiction Hn].
      intros Heq. symmetry in Heq. now apply Position_incr_neq in Heq.
    + reflexivity.
    + intros _ _. exact Hpv.
  - split; [|split].
    + split; [discriminate | reflexivity].
    + discriminate.
    + intros Hrange Hlast. now apply Position_incr_valid_unless_last.
Qed.

(** C8: a call that hands out a chunk sends a Discontinuity notification
    exactly when the chunk carries the discontinuity flag, [current] was
    valid when the call started, and [current] and [next] then had different
    segment numbers; it sends at most one, with the chunk's discontinuity
    sequence number. *)
Theorem getNextChunk_discontinuity sw cm (s : Sys W) (r : ChunkInterface) :
  result (getNextChunk E sw cm s) = Some r ->
  filter isDiscontinuity (events (sent (getNextChunk E sw cm s)))
  = (if discontinuity (wrapped r) && Position.isValid (current (trk s))
        && negb (Position.number (current (trk s)) =? Position.number (next (trk s)))
     then [DiscontinuityEvent (discontinuitySequenceNumber (wrapped r))]
     else []) /\
  ((exists d, In (DiscontinuityEvent d) (events (sent (getNextChunk E sw cm s))))
   <-> discontinuity (wrapped r) = true /\
       Position.isValid (current (trk s)) = true /\
       Position.number (current (trk s)) <> Position.number (next (trk s))).
Proof.
  intros Hr.
  destruct (getNextChunk E sw cm s) as [[b s'] l] eqn:H.
  cbn [result final sent fst snd] in *. subst b.
  apply getNextChunk_Some in H.
  destruct H as (aset & entry & ck & seen & lpre & _ & _ & _ & _ & _ & _
                 & Hrc & _ & _ & _ & _ & Hpre & ->).
  destruct (wrapped_flags _ _ Hrc) as (_ & Hflag & Hseq).
  rewrite Hflag, Hseq. fold (discontinuityOf (trk s) ck).
  assert (Hfilter :
    filter isDiscontinuity
      (events (lpre ++
         (if gapOf (trk s) entry then [(SegmentGapEvent, seen)] else []) ++
         (if discontinuityOf (trk s) ck
          then [(DiscontinuityEvent (discontinuitySequenceNumber ck), seen)] else []) ++
         [(SegmentChangedEvent aset (discontinuitySequenceNumber ck)
             (ChunkEntry.starttime entry) (ChunkEntry.duration entry)
             (ChunkEntry.displaytime entry), seen)]))
    = if discontinuityOf (trk s) ck
      then [DiscontinuityEvent (discontinuitySequenceNumber ck)] else []).
  { rewrite events_app, filter_app, filter_prelude; [| |exact Hpre].
    - destruct (gapOf (trk s) entry), (discontinuityOf (trk s) ck); reflexivity.
    - intros []; cbn; congruence. }
  split; [exact Hfilter|].
  assert (Hiff : discontinuityOf (trk s) ck = true <->
                 discontinuity ck = true /\
                 Position.isValid (current (trk s)) = true /\
                 Position.number (current (trk s)) <> Position.number (next (trk s))).
  { unfold discontinuityOf.
    rewrite !andb_true_iff, negb_true_iff, Z.eqb_neq. tauto. }
  rewrite <- Hiff. split.
  - intros [d Hin].
    assert (Hin' : In (DiscontinuityEvent d)
                      (filter isDiscontinuity
                         (events (lpre ++
         (if gapOf (trk s) entry then [(SegmentGapEvent, seen)] else []) ++
         (if discontinuityOf (trk s) ck
          then [(DiscontinuityEvent (discontinuitySequenceNumber ck), seen)] else []) ++
         [(SegmentChangedEvent aset (discontinuitySequenceNumber ck)
             (ChunkEntry.starttime entry) (ChunkEntry.duration entry)
             (ChunkEntry.displaytime entry), seen)]))))
      by (apply filter_In; auto).
    rewrite Hfilter in Hin'.
    destruct (discontinuityOf (trk s) ck); [reflexivity | contradiction].
  - intros Hd. exists (discontinuitySequenceNumber ck).
    eapply (proj1 (filter_In isDiscontinuity _ _)).
    rewrite Hfilter, Hd. now left.
Qed.

End Delivery.

(** ** Fields kept by the mutating methods *)

Section Mutators.

Context {W : Type} (E : Env W).
Variable P : SegmentTracker -> Prop.
Hypothesis P_current : forall p t, P t -> P (set_current p t).
Hypothesis P_next : forall p t, P t -> P (set_next p t).
Hypothesis P_queue : forall q t, P t -> P (set_chunkssequence q t).
Hypothesis P_restart : forall t, P t -> P (set_initializing true t).
Hypothesis P_listeners : forall l t, P t -> P (set_listeners l t).
Hypothesis P_logic : forall l t, P t -> P (set_logic l t).

Ltac keeps_mut :=
  repeat first
    [ apply keeps_resetChunksSequence; solve [auto]
    | apply keeps_getPlaybackTime
    | apply keeps_getStartPosition
    | apply keeps_modify; intros ? ?; unfold pop_front, push_back; solve [auto]
    | keeps_step ].

Lemma keeps_setPosition pos restarted : keeps P (setPosition E pos restarted).
Proof. unfold setPosition. keeps_mut. Qed.

Lemma keeps_setPositionByTime time restarted tryonly :
  keeps P (setPositionByTime E time restarted tryonly).
Proof.
  unfold setPositionByTime. keeps_mut. all: try apply keeps_setPosition.
Qed.

Lemma keeps_setStartPosition : keeps P (setStartPosition E).
Proof. unfold setStartPosition. keeps_mut. Qed.

Lemma keeps_registerListener l : keeps P (registerListener (W:=W) l).
Proof. unfold registerListener. keeps_mut. Qed.

Lemma keeps_setAdaptationLogic l : keeps P (setAdaptationLogic (W:=W) l).
Proof. unfold setAdaptationLogic, registerListener. keeps_mut. Qed.

(** Every call other than [getNextChunk] and [reset]. *)
Lemma keeps_perform c :
  isReset c = false ->
  (forall sw cm, c <> CallGetNextChunk sw cm) ->
  keeps P (perform E c).
Proof.
  intros Hr Hg. destruct c; cbn [perform]; try discriminate.
  1: now contradiction (Hg switch_allowed cm).
  all: apply keeps_bind; [|intros ?; apply keeps_ret].
  - apply keeps_setPositionByTime.
  - apply keeps_setPosition.
  - apply keeps_setStartPosition.
  - apply keeps_updateSelected.
  - apply keeps_getCurrentFormat.
  - apply keeps_getMinAheadTime.
  - apply keeps_getPlaybackTime.
  - apply keeps_bufferingAvailable.
  - apply keeps_notifyBufferingState.
  - apply keeps_notifyBufferingLevel.
  - apply keeps_registerListener.
  - apply keeps_setAdaptationLogic.
  - apply keeps_call_.
Qed.

End Mutators.

(** ** Sequences of calls *)

Section Histories.

Context {W : Type} (E : Env W).

Lemma performAll_cons c cs (s : Sys W) :
  result (performAll E (c :: cs) s)
  = result (perform E c s) :: result (performAll E cs (final (perform E c s))) /\
  final (performAll E (c :: cs) s)
  = final (performAll E cs (final (perform E c s))).
Proof.
  cbn [performAll]. unfold bind.
  destruct (perform E c s) as [[r s1] l1].
  cbn [final fst snd].
  destruct (performAll E cs s1) as [[rs s2] l2]. split; reflexivity.
Qed.

Lemma perform_reset s :
  result (perform E CallReset s) = None /\
  trk (final (perform E CallReset s)) = trk (final (reset E s)).
Proof.
  cbn [perform]. unfold bind, ret.
  destruct (reset E s) as [[u s1] l1]. split; reflexivity.
Qed.

(** A call that hands out nothing leaves an initializing tracker
    initializing, and a tracker with an unsupported format hands out
    nothing and keeps that format. *)
Lemma getNextChunk_None sw cm s s' l :
  getNextChunk E sw cm s = (None, s', l) ->
  (initializing (trk s) = true -> initializing (trk s') = true) /\
  (format (trk s) = Unsupported -> format (trk s') = Unsupported).
Proof.
  intros H. apply getNextChunk_cases in H.
  destruct H as [(_ & -> & _) | H]; [tauto|].
  destruct H as (aset & u & s1 & l1 & entry & Ha & Hv & Hfill & Hhd & H).
  pose proof (fillChunksSequence_inv _ _ _ _ _ _ _ Hfill) as ([q Hq] & _ & _).
  destruct H as [(_ & _ & -> & _) | (ck & l2 & Hev & Hck & Hdel & ->)].
  - rewrite Hq. cbn. tauto.
  - apply deliver_cases in Hdel. cbv zeta in Hdel.
    destruct Hdel as [(_ & _ & -> & _) | (_ & rc & t2 & lf & Hb & _)];
      [|discriminate].
    rewrite Hq. destruct (switchedOf _ entry); cbn; tauto.
Qed.

Lemma getNextChunk_Unsupported sw cm s :
  format (trk s) = Unsupported ->
  result (getNextChunk E sw cm s) = None /\
  format (trk (final (getNextChunk E sw cm s))) = Unsupported.
Proof.
  intros Hf.
  destruct (getNextChunk E sw cm s) as [[[r|] s'] l] eqn:H; cbn [result final fst snd].
  - apply getNextChunk_Some in H.
    destruct H as (? & ? & ? & ? & ? & _ & _ & Hne & _). contradiction.
  - split; [reflexivity|]. now apply (getNextChunk_None _ _ _ _ _ H).
Qed.

Lemma performAll_initializing cs (s : Sys W) :
  initializing (trk s) = true ->
  Forall (fun x => x = None) (result (performAll E cs s)) ->
  initializing (trk (final (performAll E cs s))) = true.
Proof.
  revert s. induction cs as [|c cs IH]; intros s Hi Hall; [exact Hi|].
  destruct (performAll_cons c cs s) as [Hres Hfin].
  rewrite Hres in Hall. rewrite Hfin. inversion Hall as [|x xs Hc Hcs]; subst.
  apply IH; [|exact Hcs]. clear IH Hall Hcs Hres Hfin.
  destruct (isReset c) eqn:Hr.
  - destruct c; try discriminate.
    rewrite (proj2 (perform_reset s)). apply reset_initializing.
  - destruct c as [sw cm| | | | | | | | | | | | | |].
    1:{ cbn [perform] in *.
        destruct (getNextChunk E sw cm s) as [[b s'] l] eqn:H.
        cbn [result final fst snd] in *. subst b.
        now apply (getNextChunk_None _ _ _ _ _ H). }
    all: apply (keeps_perform E (fun t => initializing t = true));
      try (intros; cbn; assumption); try reflexivity; try discriminate;
      assumption.
Qed.

(** C3: after construction or after [reset], whatever is called in between
    and however often [getNextChunk] came back empty-handed, the first
    [getNextChunk] that hands out a chunk sends no SegmentGap notification,
    whichever segment number the representation substituted; and it is that
    call which ends the initializing state. *)
Theorem first_chunk_sends_no_gap (s0 : Sys W) (cs : list (Call (W:=W)))
        sw cm (r : ChunkInterface) :
  justStarted E s0 ->
  Forall (fun x => x = None) (result (performAll E cs s0)) ->
  result (getNextChunk E sw cm (final (performAll E cs s0))) = Some r ->
  ~ In SegmentGapEvent
      (events (sent (getNextChunk E sw cm (final (performAll E cs s0))))) /\
  initializing (trk (final (performAll E cs s0))) = true /\
  initializing (trk (final (getNextChunk E sw cm (final (performAll E cs s0))))) = false.
Proof.
  intros Hstart Hall Hr.
  assert (Hi0 : initializing (trk s0) = true).
  { destruct Hstart as [(l & bl & a & ->) | (s & ->)]; [reflexivity|].
    apply reset_initializing. }
  pose proof (performAll_initializing cs s0 Hi0 Hall) as Hi.
  set (s1 := final (performAll E cs s0)) in *.
  destruct (getNextChunk E sw cm s1) as [[b s'] l] eqn:H.
  cbn [result final sent fst snd] in *. subst b.
  apply getNextChunk_Some in H.
  destruct H as (aset & entry & ck & seen & lpre & _ & _ & _ & _ & _ & _
                 & _ & _ & _ & Hseen & Ht' & Hpre & ->).
  assert (Hg : gapOf (trk s1) entry = false).
  { unfold gapOf. now rewrite Hi. }
  rewrite Hg in *. split; [|split].
  - rewrite In_events_after_prelude by (assumption || reflexivity).
    destruct (discontinuityOf (trk s1) ck); cbn; intuition congruence.
  - exact Hi.
  - rewrite Ht'. exact Hseen.
Qed.


Lemma bind_ret_None {A B} (m : M W A) (s : Sys W) :
  result (bind m (fun _ => ret (@None B)) s) = None.
Proof. unfold bind, ret. destruct (m s) as [[? ?] ?]. reflexivity. Qed.

Lemma perform_other_result c (s : Sys W) :
  (forall sw cm, c <> CallGetNextChunk sw cm) ->
  result (perform E c s) = None.
Proof.
  intros Hg. destruct c; cbn [perform]; try apply bind_ret_None.
  now contradiction (Hg switch_allowed cm).
Qed.

Lemma performAll_unsupported cs (s : Sys W) :
  format (trk s) = Unsupported ->
  forallb (fun c => negb (isReset c)) cs = true ->
  Forall (fun x => x = None) (result (performAll E cs s)) /\
  format (trk (final (performAll E cs s))) = Unsupported.
Proof.
  revert s. induction cs as [|c cs IH]; intros s Hf Hnr.
  - split; [constructor | exact Hf].
  - cbn [forallb] in Hnr. apply andb_true_iff in Hnr as [Hc Hcs].
    apply negb_true_iff in Hc.
    destruct (performAll_cons c cs s) as [Hres Hfin].
    rewrite Hres, Hfin.
    assert (Hstep : result (perform E c s) = None /\
                    format (trk (final (perform E c s))) = Unsupported).
    { destruct c as [sw cm| | | | | | | | | | | | | |].
      1: exact (getNextChunk_Unsupported sw cm s Hf).
      all: split;
        [ apply perform_other_result; discriminate
        | apply (keeps_perform E (fun t => format t = Unsupported));
          try (intros; cbn; assumption); try reflexivity; try discriminate;
          assumption ]. }
    destruct Hstep as [Hr Hf'].
    destruct (IH _ Hf' Hcs) as [Hall Hfinal].
    split; [constructor; assumption | exact Hfinal].
Qed.

(** A call that is refused, or whose front entry is not valid, hands out
    nothing and leaves both cursors where they were. *)
Lemma getNextChunk_nothing_prepared sw cm (s : Sys W) :
  adaptationSet (trk s) = None
  \/ Position.isValid (next (trk s)) = false
  \/ (exists entry,
        hd_error (chunkssequence (trk (final (fillChunksSequence E sw cm s)))) = Some entry
        /\ ChunkEntry.isValid entry = false) ->
  result (getNextChunk E sw cm s) = None /\
  current (trk (final (getNextChunk E sw cm s))) = current (trk s) /\
  next (trk (final (getNextChunk E sw cm s))) = next (trk s).
Proof.
  intros Hcase.
  destruct (getNextChunk E sw cm s) as [[b s'] l] eqn:H.
  cbn [result final fst snd].
  apply getNextChunk_cases in H.
  destruct H as [(-> & -> & _) | H]; [auto|].
  destruct H as (aset & u & s1 & l1 & entry & Ha & Hv & Hfill & Hhd & H).
  destruct Hcase as [Hna | [Hnv | (entry' & Hhd' & Hinv)]]; [congruence | congruence |].
  rewrite Hfill in Hhd'. cbn [final fst snd] in Hhd'.
  assert (entry' = entry) by congruence. subst entry'.
  destruct H as [(_ & -> & -> & _) | (ck & l2 & Hev & _)]; [|congruence].
  pose proof (fillChunksSequence_inv _ _ _ _ _ _ _ Hfill) as ([q Hq] & _ & _).
  rewrite Hq. auto.
Qed.

(** C6: once the recorded format is Unsupported, every [getNextChunk] of
    any sequence of calls without a [reset] returns null and the format
    stays Unsupported; and each such call that finds a valid entry at the
    front of its queue still moves both cursors to that entry's
    position. *)
Theorem unsupported_is_a_dead_end (s : Sys W) (cs : list (Call (W:=W))) :
  format (trk s) = Unsupported ->
  forallb (fun c => negb (isReset c)) cs = true ->
  Forall (fun x => x = None) (result (performAll E cs s)) /\
  format (trk (final (performAll E cs s))) = Unsupported /\
  forall sw cm entry,
    let s1 := final (performAll E cs s) in
    adaptationSet (trk s1) <> None ->
    Position.isValid (next (trk s1)) = true ->
    hd_error (chunkssequence (trk (final (fillChunksSequence E sw cm s1)))) = Some entry ->
    ChunkEntry.isValid entry = true ->
    result (getNextChunk E sw cm s1) = None /\
    current (trk (final (getNextChunk E sw cm s1))) = ChunkEntry.pos entry /\
    next (trk (final (getNextChunk E sw cm s1))) = ChunkEntry.pos entry.
Proof.
  intros Hf Hnr.
  destruct (performAll_unsupported cs s Hf Hnr) as [Hall Hf1].
  split; [exact Hall|]. split; [exact Hf1|].
  intros sw cm entry s1 Ha Hv Hhd Hev.
  fold s1 in Hf1.
  destruct (getNextChunk_Unsupported sw cm s1 Hf1) as [Hres _].
  split; [exact Hres|].
  destruct (getNextChunk E sw cm s1) as [[b s'] l] eqn:H.
  cbn [result final fst snd] in *. subst b.
  apply getNextChunk_cases in H.
  destruct H as [(_ & _ & _ & [Hna | Hnv]) | H]; [contradiction | congruence |].
  destruct H as (aset & u & s2 & l1 & entry' & _ & _ & Hfill & Hhd' & H).
  rewrite Hfill in Hhd. cbn [final fst snd] in Hhd.
  assert (entry' = entry) by congruence. subst entry'.
  destruct H as [(Hev' & _) | (ck & l2 & _ & Hck & Hdel & ->)]; [congruence|].
  apply deliver_cases in Hdel. cbv zeta in Hdel.
  destruct Hdel as [(_ & _ & -> & _) | (Hne & _)].
  - split; reflexivity.
  - pose proof (fillChunksSequence_inv _ _ _ _ _ _ _ Hfill) as ([q Hq] & _ & _).
    rewrite Hq in Hne. cbn in Hne. contradiction.
Qed.

End Histories.

(** ** Preparing a chunk *)

Section PrepareChunk.

Context {W : Type} (E : Env W).

(** The entry [openChunk] builds is on the representation it was asked
    for. *)
Lemma openChunk_rep pos cm (s : Sys W) :
  ChunkEntry.chunk (result (openChunk E pos cm s)) <> None ->
  Position.rep (ChunkEntry.pos (result (openChunk E pos cm s))) = Position.rep pos.
Proof.
  unfold openChunk, result. run_m.
  destruct (Position.rep pos) as [r|] eqn:Hr; [|cbn; congruence].
  destruct (rep_getNextMediaSegment E r (Position.number pos) (world s))
    as [[[datasegment num] b_gap]|] eqn:Hseg; cbn; [|congruence].
  split_m; cbn; try congruence; intros _;
    repeat match goal with p : (Z * Z)%type |- _ => destruct p end;
    cbn; rewrite ?Position_incr_rep; cbn; rewrite ?Position_incr_rep; assumption.
Qed.

(** C4: from a valid position, when the representations are not
    segment-aligned, or the init segment or the index segment of the
    position has not been sent yet, the [switch_allowed] argument makes no
    difference: the adaptation logic is not consulted, the chunk is opened
    from the position as given, and the entry stays on its
    representation. *)
Theorem prepareChunk_switch_gate sw pos cm (s : Sys W) aset :
  adaptationSet (trk s) = Some aset ->
  Position.isValid pos = true ->
  set_isSegmentAligned E aset (world s)
    && Position.init_sent pos && Position.index_sent pos = false ->
  prepareChunk E sw pos cm s = prepareChunk E false pos cm s /\
  prepareChunk E sw pos cm s = openChunk E pos cm s /\
  (ChunkEntry.chunk (result (prepareChunk E sw pos cm s)) <> None ->
   Position.rep (ChunkEntry.pos (result (prepareChunk E sw pos cm s)))
   = Position.rep pos).
Proof.
  intros Ha Hv Hgate.
  assert (Hopen : forall b, prepareChunk E b pos cm s = openChunk E pos cm s).
  { intros b. unfold prepareChunk, continuePosition. run_m.
    rewrite Ha, Hv. cbn.
    assert (Hc : negb (set_isSegmentAligned E aset (world s))
                 || negb (Position.init_sent pos)
                 || negb (Position.index_sent pos) = true).
    { destruct (set_isSegmentAligned E aset (world s)),
               (Position.init_sent pos), (Position.index_sent pos);
        cbn in *; congruence. }
    rewrite Hc. cbn.
    replace {| world := world s; trk := trk s |} with s by now destruct s.
    now destruct (openChunk E pos cm s) as [[e s'] l]. }
  split; [now rewrite !Hopen|]. split; [apply Hopen|].
  rewrite Hopen. apply openChunk_rep.
Qed.


(** C5: when switching is allowed and the adaptation logic proposes another
    representation, the switch is dropped if the segment number, translated
    and after the refresh translated once more when the first answer was
    the sentinel, is still the sentinel, or if the proposed representation
    reports no time ahead for the translated number; the chunk is then
    opened from the position as given, on the refreshed playlist. *)
Theorem prepareChunk_switch_abandoned pos cm (s : Sys W) aset c :
  adaptationSet (trk s) = Some aset ->
  Position.isValid pos = true ->
  set_isSegmentAligned E aset (world s) = true ->
  Position.init_sent pos = true ->
  Position.index_sent pos = true ->
  fst (logic_getNextRepresentation E (logic (trk s)) (Some aset)
         (Position.rep pos) (world s)) = Some c ->
  Some c <> Position.rep pos ->
  let w1 := snd (logic_getNextRepresentation E (logic (trk s)) (Some aset)
                   (Position.rep pos) (world s)) in
  let w2 := candidateRefreshed E c
              (rep_translateSegmentNumber E c (Position.number pos)
                 (Position.rep pos) w1) w1 in
  candidateNumber E c pos w1 = uint64_max
  \/ rep_getMinAheadTime E c (candidateNumber E c pos w1) w2 = 0 ->
  prepareChunk E true pos cm s = openChunk E pos cm (mkSys w2 (trk s)).
Proof.
  intros Ha Hv Hal Hi Hx Hc Hne w1 w2 Habandon.
  assert (Hneb : rep_eqb (Some c) (Position.rep pos) = false).
  { destruct (rep_eqb (Some c) (Position.rep pos)) eqn:Heq; [|reflexivity].
    apply rep_eqb_eq in Heq. contradiction. }
  unfold prepareChunk, continuePosition, switchCandidate. run_m.
  rewrite Ha, Hv. cbn -[rep_eqb Position.isValid]. rewrite Hal, Hi, Hx.
  cbn -[rep_eqb Position.isValid]. rewrite Ha, Hc. cbn -[rep_eqb Position.isValid].
  rewrite Hneb. cbn -[rep_eqb Position.isValid].
  fold w1.
  unfold candidateNumber in Habandon. subst w2. unfold candidateRefreshed in *.
  set (n0 := rep_translateSegmentNumber E c (Position.number pos)
               (Position.rep pos) w1) in *.
  assert (Hval : forall n, Position.isValid (Position.make (Some c) n)
                           = negb (n =? uint64_max)).
  { intros n. unfold Position.isValid. cbn. now rewrite andb_true_r. }
  assert (Hopen : forall (r : ChunkEntry.t * Sys W * list Emitted),
             (let '(b, s2, l2) := r in (b, s2, l2)) = r).
  { now intros [[? ?] ?]. }
  rewrite Hval.
  destruct (rep_needsUpdate E c n0 w1) eqn:Hnu;
    destruct (n0 =? uint64_max) eqn:Hn0;
    cbn -[rep_eqb Position.isValid uint64_max] in *; rewrite Hval.
  all: match goal with
       | |- context [if negb (?a =? uint64_max) then _ else _] =>
           destruct (a =? uint64_max) eqn:Hn1
       end;
       cbn -[rep_eqb Position.isValid uint64_max].
  all: try (rewrite Hval, Hn1; cbn -[rep_eqb Position.isValid uint64_max];
            now rewrite !Hopen).
  all: destruct Habandon as [Hs | Hz];
       [ apply Z.eqb_neq in Hn1; contradiction | rewrite Hz ].
  all: cbn -[rep_eqb Position.isValid uint64_max].
  all: change (Position.isValid Position.default) with false;
       cbn -[rep_eqb Position.isValid uint64_max]; now rewrite !Hopen.
Qed.


End PrepareChunk.

(** ** Seeking *)

Section Seek.

Context {W : Type} (E : Env W).

(** A seek that only tries: the tracker keeps every field and no position
    is announced.  A seek that commits: the same steps, followed, when they
    succeed, by [setPosition] on a fresh position of the resolved
    representation with the number found for the time. *)
Lemma setPositionByTime_commit time restarted (s : Sys W) :
  trk (final (setPositionByTime E time restarted true s)) = trk s /\
  Forall (fun e => isRepresentationUpdated (fst e))
         (sent (setPositionByTime E time restarted true s)) /\
  (result (setPositionByTime E time restarted true s) = false ->
   setPositionByTime E time restarted false s
   = setPositionByTime E time restarted true s) /\
  (result (setPositionByTime E time restarted true s) = true ->
   exists r n,
     (if Position.isValid (current (trk s)) then Position.rep (current (trk s))
      else fst (logic_getNextRepresentation E (logic (trk s)) (adaptationSet (trk s))
                  None (world s))) = Some r /\
     rep_getSegmentNumberByTime E r time
       (world (final (setPositionByTime E time restarted true s))) = Some n /\
     setPositionByTime E time restarted false s
     = (true,
        final (setPosition E (Position.make (Some r) n) restarted
                 (final (setPositionByTime E time restarted true s))),
        sent (setPositionByTime E time restarted true s)
        ++ sent (setPosition E (Position.make (Some r) n) restarted
                   (final (setPositionByTime E time restarted true s))))).
Proof.
  unfold setPositionByTime. run_m. cbn -[Position.isValid setPosition].
  change (Position.isValid
            (Position.make (Position.rep (current (trk s)))
                           (Position.number (current (trk s)))))
    with (Position.isValid (current (trk s))).
  destruct (Position.isValid (current (trk s))) eqn:Hv;
    cbn -[Position.isValid setPosition].
  all: match goal with
       | |- context [match ?x with Some _ => _ | None => _ end] =>
           destruct x as [r|] eqn:Hrep
       end; cbn -[Position.isValid setPosition];
       try (split; [reflexivity|]; split; [constructor|];
            split; [reflexivity | discriminate]).
  all: match goal with
       | |- context [if rep_needsUpdate E ?r ?n ?w then _ else _] =>
           destruct (rep_needsUpdate E r n w) eqn:Hnu
       end; cbn -[Position.isValid setPosition].
  all: try match goal with
       | |- context [if negb (fst ?x) then _ else _] =>
           destruct (fst x) eqn:Hok
       end; cbn -[Position.isValid setPosition];
       try (split; [reflexivity|]; split; [constructor|];
            split; [reflexivity | discriminate]).
  all: match goal with
       | |- context [match rep_getSegmentNumberByTime E ?r ?t ?w with _ => _ end] =>
           destruct (rep_getSegmentNumberByTime E r t w) as [n|] eqn:Hfound
       end; cbn -[Position.isValid setPosition];
       try (split; [reflexivity|]; split; [repeat constructor|];
            split; [reflexivity | discriminate]).
  all: split; [reflexivity|]; split; [repeat constructor|];
       split; [discriminate|]; intros _; exists r, n;
       split; [reflexivity|]; split; [exact Hfound|].
  all: repeat match goal with
       | |- context [setPosition E ?p ?b ?x] =>
           lazymatch p with
           | Position.make (Some _) _ => fail
           | _ => change p with (Position.make (Some r) n)
           end
       end.
  all: match goal with
       | |- context [setPosition E ?p ?b ?x] =>
           destruct (setPosition E p b x) as [[[] sx] lx]
       end; cbn [result final sent fst snd app]; rewrite ?app_nil_r; reflexivity.
Qed.

(** C9: [setPositionByTime] fails when no representation can be found or
    when the refresh it needs fails; otherwise it returns whether the
    representation maps the time to a segment number; and [tryonly] has no
    part in the result.  What [tryonly] decides is the commit: with it the
    tracker keeps every field and no position is announced; without it a
    failed seek is the same as the tried one, and a successful seek is the
    tried one followed by [setPosition] on a fresh position of the resolved
    representation (the current one when [current] is valid, else the one
    the adaptation logic proposes) with the number found for the time. *)
Theorem setPositionByTime_result time restarted tryonly (s : Sys W) :
  result (setPositionByTime E time restarted tryonly s) = seekOutcome E time s /\
  result (setPositionByTime E time restarted true s)
  = result (setPositionByTime E time restarted false s) /\
  trk (final (setPositionByTime E time restarted true s)) = trk s /\
  Forall (fun e => isRepresentationUpdated (fst e))
         (sent (setPositionByTime E time restarted true s)) /\
  (seekOutcome E time s = false ->
   setPositionByTime E time restarted false s
   = setPositionByTime E time restarted true s) /\
  (seekOutcome E time s = true ->
   exists r n,
     (if Position.isValid (current (trk s)) then Position.rep (current (trk s))
      else fst (logic_getNextRepresentation E (logic (trk s)) (adaptationSet (trk s))
                  None (world s))) = Some r /\
     rep_getSegmentNumberByTime E r time
       (world (final (setPositionByTime E time restarted true s))) = Some n /\
     setPositionByTime E time restarted false s
     = (true,
        final (setPosition E (Position.make (Some r) n) restarted
                 (final (setPositionByTime E time restarted true s))),
        sent (setPositionByTime E time restarted true s)
        ++ sent (setPosition E (Position.make (Some r) n) restarted
                   (final (setPositionByTime E time restarted true s))))).
Proof.
  assert (H : forall b, result (setPositionByTime E time restarted b s)
                        = seekOutcome E time s).
  { intros b. unfold setPositionByTime, seekOutcome, result. run_m.
    cbn -[Position.isValid].
    change (Position.isValid
              (Position.make (Position.rep (current (trk s)))
                             (Position.number (current (trk s)))))
      with (Position.isValid (current (trk s))).
    destruct (Position.isValid (current (trk s))); cbn -[Position.isValid].
    all: match goal with
         | |- context [match ?x with Some _ => _ | None => _ end] =>
             destruct x as [r|] eqn:Hrep
         end; cbn -[Position.isValid]; try reflexivity.
    all: match goal with
         | |- context [if rep_needsUpdate E ?r ?n ?w then _ else _] =>
             destruct (rep_needsUpdate E r n w) eqn:Hnu
         end; cbn -[Position.isValid].
    all: try match goal with
         | |- context [if negb (fst ?x) then _ else _] =>
             destruct (fst x) eqn:Hok
         end; cbn -[Position.isValid]; try reflexivity.
    all: match goal with
         | |- context [match rep_getSegmentNumberByTime E ?r ?t ?w with _ => _ end] =>
             destruct (rep_getSegmentNumberByTime E r t w) eqn:Hfound
         end; cbn -[Position.isValid]; try reflexivity.
    all: destruct b; cbn -[Position.isValid]; try reflexivity.
    all: match goal with
         | |- context [setPosition E ?p ?r ?x] =>
             destruct (setPosition E p r x) as [[? ?] ?]
         end; reflexivity. }
  destruct (setPositionByTime_commit time restarted s) as (Ht & Hs & Hf & Hc).
  rewrite (H true) in Hf, Hc.
  split; [apply H|]. split; [now rewrite !H|]. auto.
Qed.

End Seek.

(** ** The statements on the concrete playlist *)

Lemma setPositionByTime_result_witness :
  seekOutcome (Demo.env Demo.plain) 0 (Demo.midstream (Codec 1)) = true /\
  trk (final (setPositionByTime (Demo.env Demo.plain) 0 false true
                (Demo.midstream (Codec 1))))
  = trk (Demo.midstream (Codec 1)) /\
  next (trk (final (setPositionByTime (Demo.env Demo.plain) 0 false false
                      (Demo.midstream (Codec 1)))))
  = Position.make (Some 1%nat) 12 /\
  current (trk (final (setPositionByTime (Demo.env Demo.plain) 0 false false
                         (Demo.midstream (Codec 1)))))
  = Position.default.
Proof.
  pose proof (setPositionByTime_result (Demo.env Demo.plain) 0 false false
                (Demo.midstream (Codec 1))) as (_ & _ & Hkeep & _ & _ & Hcommit).
  split; [reflexivity|]. split; [exact Hkeep|].
  destruct (Hcommit eq_refl) as (r & n & Hr & Hn & Heq).
  vm_compute in Hr. vm_compute in Hn.
  injection Hr as <-. injection Hn as <-.
  rewrite Heq. split; reflexivity.
Defined.

Lemma getNextChunk_cursors_witness :
  result (getNextChunk (Demo.env Demo.plain) true 0%nat (Demo.midstream (Codec 1)))
  = Some (PlainChunk {| chunk_id := 100; discontinuity := false;
                        discontinuitySequenceNumber := 7; streamFormat := Codec 1 |}) /\
  exists entry,
    current (trk (final (getNextChunk (Demo.env Demo.plain) true 0%nat
                           (Demo.midstream (Codec 1)))))
    = ChunkEntry.pos entry /\
    Position.isValid
      (current (trk (final (getNextChunk (Demo.env Demo.plain) true 0%nat
                              (Demo.midstream (Codec 1)))))) = true.
Proof.
  split; [reflexivity|].
  destruct (getNextChunk_cursors (Demo.env Demo.plain) true 0%nat
              (Demo.midstream (Codec 1)) _ eq_refl)
    as (entry & ck & seen & ev & _ & _ & _ & _ & Hvalid & Hcur & _).
  exists entry. split; assumption.
Defined.

Lemma getNextChunk_discontinuity_witness :
  result (getNextChunk (Demo.env Demo.moved) true 0%nat (Demo.midstream (Codec 1)))
  = Some (PlainChunk {| chunk_id := 100; discontinuity := true;
                        discontinuitySequenceNumber := 7; streamFormat := Codec 1 |}) /\
  filter isDiscontinuity
    (events (sent (getNextChunk (Demo.env Demo.moved) true 0%nat
                     (Demo.midstream (Codec 1)))))
  = [DiscontinuityEvent 7].
Proof.
  split; [reflexivity|].
  exact (proj1 (getNextChunk_discontinuity (Demo.env Demo.moved) true 0%nat
                  (Demo.midstream (Codec 1)) _ eq_refl)).
Defined.

Lemma first_chunk_sends_no_gap_witness :
  justStarted (Demo.env Demo.moved) Demo.cold /\
  Position.number
    (next (trk (final (performAll (Demo.env Demo.moved) [CallSetStartPosition] Demo.cold))))
  = 10 /\
  Position.number
    (current (trk (final (getNextChunk (Demo.env Demo.moved) true 0%nat
       (final (performAll (Demo.env Demo.moved) [CallSetStartPosition] Demo.cold))))))
  = 15 /\
  ~ In SegmentGapEvent
      (events (sent (getNextChunk (Demo.env Demo.moved) true 0%nat
         (final (performAll (Demo.env Demo.moved) [CallSetStartPosition] Demo.cold))))).
Proof.
  assert (Hstart : justStarted (Demo.env Demo.moved) Demo.cold).
  { left. exists 0%nat, 0%nat, (Some 0%nat). reflexivity. }
  split; [exact Hstart|]. split; [reflexivity|]. split; [reflexivity|].
  refine (proj1 (first_chunk_sends_no_gap (Demo.env Demo.moved) Demo.cold
                   [CallSetStartPosition] true 0%nat _ Hstart _ eq_refl)).
  repeat constructor.
Defined.

Lemma prepareChunk_switch_gate_witness :
  Position.index_sent Demo.before_index = false /\
  Position.rep (ChunkEntry.pos (result
    (prepareChunk (Demo.env Demo.inviting) true Demo.before_index 0%nat
       (Demo.midstream (Codec 1)))))
  = Some 1%nat.
Proof.
  split; [reflexivity|].
  refine (proj2 (proj2 (prepareChunk_switch_gate (Demo.env Demo.inviting) true
                          Demo.before_index 0%nat (Demo.midstream (Codec 1)) 0%nat
                          eq_refl eq_refl eq_refl)) _).
  discriminate.
Defined.

Lemma prepareChunk_switch_abandoned_witness :
  rep_getMinAheadTime (Demo.env Demo.at_edge) 2%nat 20 1%nat = 0 /\
  prepareChunk (Demo.env Demo.at_edge) true (Position.mk (Some 1%nat) 11 true true)
               0%nat (Demo.midstream (Codec 1))
  = openChunk (Demo.env Demo.at_edge) (Position.mk (Some 1%nat) 11 true true)
              0%nat (Demo.midstream (Codec 1)) /\
  candidateNumber (Demo.env Demo.untranslatable) 2%nat
                  (Position.mk (Some 1%nat) 11 true true) 1%nat = uint64_max /\
  prepareChunk (Demo.env Demo.untranslatable) true (Position.mk (Some 1%nat) 11 true true)
               0%nat (Demo.midstream (Codec 1))
  = openChunk (Demo.env Demo.untranslatable) (Position.mk (Some 1%nat) 11 true true)
              0%nat (Demo.midstream (Codec 1)).
Proof.
  split; [reflexivity|]. split; [|split; [reflexivity|]].
  - refine (prepareChunk_switch_abandoned (Demo.env Demo.at_edge)
              (Position.mk (Some 1%nat) 11 true true) 0%nat (Demo.midstream (Codec 1))
              0%nat 2%nat eq_refl eq_refl eq_refl eq_refl eq_refl eq_refl _ _).
    + discriminate.
    + right. reflexivity.
  - refine (prepareChunk_switch_abandoned (Demo.env Demo.untranslatable)
              (Position.mk (Some 1%nat) 11 true true) 0%nat (Demo.midstream (Codec 1))
              0%nat 2%nat eq_refl eq_refl eq_refl eq_refl eq_refl eq_refl _ _).
    + discriminate.
    + left. reflexivity.
Defined.

Lemma unsupported_is_a_dead_end_witness :
  format (trk (Demo.midstream Unsupported)) = Unsupported /\
  Forall (fun x => x = None)
    (result (performAll (Demo.env Demo.plain)
               [CallGetNextChunk true 0%nat; CallSetPositionByTime 0 false false;
                CallGetNextChunk true 0%nat]
               (Demo.midstream Unsupported))).
Proof.
  split; [reflexivity|].
  exact (proj1 (unsupported_is_a_dead_end (Demo.env Demo.plain)
                  (Demo.midstream Unsupported)
                  [CallGetNextChunk true 0%nat; CallSetPositionByTime 0 false false;
                   CallGetNextChunk true 0%nat]
                  eq_refl eq_refl)).
Defined.

(** ** The content-type fallback of the format probe *)

Section Probe.

Context {W : Type} (E : Env W).

(** When a chunk declares no format and its first bytes tell nothing, the
    format read from the content type goes straight to the tracker and the
    chunk keeps Unknown. *)
Lemma probeFormat_fallback ck (s : Sys W) :
  streamFormat ck = Unknown ->
  StreamFormat_of_bytes E (fst (chunk_peek E ck (world s))) = Unknown ->
  probeFormat E ck s
  = (Unknown, ProbeableChunk (setStreamFormat Unknown ck),
     mkSys (snd (chunk_peek E ck (world s)))
           (set_format (StreamFormat_of_mime E
                          (chunk_getContentType E ck (snd (chunk_peek E ck (world s)))))
                       (trk s)),
     []).
Proof.
  intros Hd Hs. unfold probeFormat. run_m. rewrite Hd. cbn. rewrite Hs. reflexivity.
Qed.

(** When the chunk declares a format, or its first bytes give one, that
    format is the chunk's, the tracker is left alone by the probe, and the
    format is recorded and announced exactly when it differs from the
    recorded one. *)
Lemma probeFormat_conclusive ck (s : Sys W) cf rc s1 l1 :
  probeFormat E ck s = (cf, rc, s1, l1) ->
  cf <> Unknown ->
  trk s1 = trk s /\ l1 = [] /\ streamFormat (wrapped rc) = cf /\
  events (sent (recordFormat E cf s1))
  = (if StreamFormat_eqb cf (format (trk s)) then [] else [FormatChangedEvent cf]) /\
  format (trk (final (recordFormat E cf s1))) = cf.
Proof.
  unfold probeFormat. run_m.
  destruct (StreamFormat_eqb (streamFormat ck) Unknown) eqn:Hd; cbn -[recordFormat].
  - destruct (StreamFormat_eqb (StreamFormat_of_bytes E (fst (chunk_peek E ck (world s))))
                               Unknown) eqn:Hs; cbn -[recordFormat];
      intros H Hne; injection H as <- <- <- <-.
    + apply StreamFormat_eqb_eq in Hs. contradiction.
    + rewrite recordFormat_eq. cbn [trk]. rewrite Hs. cbn [negb]. rewrite andb_true_r.
      repeat split; try reflexivity.
      * now destruct (StreamFormat_eqb _ (format (trk s))).
      * destruct (StreamFormat_eqb _ (format (trk s))) eqn:Heq; cbn; [|reflexivity].
        apply StreamFormat_eqb_eq in Heq. now symmetry.
  - intros H Hne; injection H as <- <- <- <-.
    rewrite recordFormat_eq. rewrite Hd. cbn [negb]. rewrite andb_true_r.
    repeat split; try reflexivity.
    + now destruct (StreamFormat_eqb _ (format (trk s))).
    + destruct (StreamFormat_eqb _ (format (trk s))) eqn:Heq; cbn; [|reflexivity].
      apply StreamFormat_eqb_eq in Heq. now symmetry.
Qed.

Lemma recordFormat_Unknown (s : Sys W) : recordFormat E Unknown s = (tt, s, []).
Proof.
  rewrite recordFormat_eq.
  now destruct (StreamFormat_eqb Unknown (format (trk s))).
Qed.

End Probe.

(** C7, the failing input: mid-stream with no format recorded yet, a chunk
    that declares no format, whose first bytes tell nothing and whose content
    type is that of codec 1.  [getNextChunk] hands the chunk out with Unknown
    cached on it, records codec 1 on the tracker and sends no FormatChanged
    notification: the only notification is the segment change. *)
Theorem mime_fallback_is_silent :
  result (getNextChunk (Demo.env Demo.mime_only) true 0%nat (Demo.midstream Unknown))
  = Some (ProbeableChunk {| chunk_id := 100; discontinuity := false;
                            discontinuitySequenceNumber := 7;
                            streamFormat := Unknown |}) /\
  format (trk (final (getNextChunk (Demo.env Demo.mime_only) true 0%nat
                        (Demo.midstream Unknown)))) = Codec 1 /\
  filter isFormatChanged
    (events (sent (getNextChunk (Demo.env Demo.mime_only) true 0%nat
                     (Demo.midstream Unknown)))) = [] /\
  events (sent (getNextChunk (Demo.env Demo.mime_only) true 0%nat
                  (Demo.midstream Unknown)))
  = [SegmentChangedEvent 0%nat 7 11001 1000 0].
Proof. repeat split; reflexivity. Qed.

(** * Further properties *)

(** ** More on the advance of a position *)

(** X1: an advance leaves a position as it is exactly when the position is
    not valid; a valid position always moves on. *)
Theorem Position_incr_fixed_iff (p : Position.t) :
  Position.incr p = p <-> Position.isValid p = false.
Proof.
  split.
  - intros Hfix. destruct (Position.isValid p) eqn:Hv; [|reflexivity].
    now apply Position_incr_neq in Hfix.
  - apply Position_incr_invalid.
Qed.

Lemma Position_incr_media (r : option RepId) (n : Z) (i : bool) :
  r <> None -> n <> uint64_max -> 0 <= n <= uint64_max ->
  Position.incr (Position.mk r n i true) = Position.mk r (n + 1) i true.
Proof.
  intros Hr Hn Hrange. unfold Position.incr.
  assert (Hv : Position.isValid (Position.mk r n i true) = true).
  { apply Position_isValid_spec. now split. }
  rewrite Hv. cbn [Position.index_sent Position.rep Position.number Position.init_sent].
  f_equal. apply Z.mod_small. unfold uint64_max in *. lia.
Qed.

(** X2: in the media stage the segment number counts up by one per advance
    and stops for good at the sentinel: after [k] advances it is
    [min (number + k) (2^64 - 1)]; it never wraps around to 0, and neither
    the representation nor the flags change. *)
Theorem Position_incr_saturates (p : Position.t) (k : nat) :
  Position.rep p <> None ->
  Position.index_sent p = true ->
  Position.in_range (Position.number p) ->
  Nat.iter k Position.incr p
  = Position.mk (Position.rep p)
                (Z.min (Position.number p + Z.of_nat k) uint64_max)
                (Position.init_sent p) true.
Proof.
  intros Hr Hx [Hlo Hhi]. destruct p as [r n i x].
  cbn [Position.rep Position.number Position.init_sent Position.index_sent] in *.
  subst x. induction k as [|k IH].
  - unfold Nat.iter. cbn [nat_rect]. f_equal. lia.
  - rewrite Nat.iter_succ. rewrite IH.
    destruct (Z_lt_le_dec (n + Z.of_nat k) uint64_max) as [Hlt | Hge].
    + rewrite (Z.min_l (n + Z.of_nat k)) by lia.
      rewrite Position_incr_media by (assumption || lia).
      f_equal. lia.
    + rewrite (Z.min_r (n + Z.of_nat k)) by lia.
      rewrite Position_incr_invalid.
      * f_equal. lia.
      * unfold Position.isValid.
        cbn [Position.number]. now rewrite Z.eqb_refl.
Qed.

Lemma Position_incr_saturates_witness :
  Position.in_range (uint64_max - 2) /\
  Nat.iter 5 Position.incr (Position.mk (Some 1%nat) (uint64_max - 2) true true)
  = Position.mk (Some 1%nat) (Z.min (uint64_max - 2 + 5) uint64_max) true true.
Proof.
  assert (Hr : Position.in_range (uint64_max - 2))
    by (unfold Position.in_range, uint64_max; lia).
  split; [exact Hr|].
  refine (Position_incr_saturates (Position.mk (Some 1%nat) (uint64_max - 2) true true)
            5 _ eq_refl Hr).
  discriminate.
Defined.

(** X3: an advance never changes the representation, keeps the number a
    64-bit value, and never sets the index flag on a position whose init flag
    is not set: positions built by the constructor and advances always have
    their stages in order. *)
Theorem Position_incr_keeps_order (p : Position.t) :
  stageOrdered p ->
  Position.in_range (Position.number p) ->
  stageOrdered (Position.incr p) /\
  Position.in_range (Position.number (Position.incr p)) /\
  Position.rep (Position.incr p) = Position.rep p.
Proof.
  intros Hord [Hlo Hhi]. unfold stageOrdered, Position.in_range in *.
  split; [|split; [|apply Position_incr_rep]].
  - unfold Position.incr.
    destruct (Position.isValid p); [|exact Hord].
    destruct (Position.index_sent p) eqn:Hx; cbn; [auto|].
    destruct (Position.init_sent p) eqn:Hi; cbn; congruence.
  - unfold Position.incr.
    destruct (Position.isValid p) eqn:Hv; [|now split].
    destruct (Position.index_sent p); [|destruct (Position.init_sent p); now split].
    cbn [Position.number].
    pose proof (Z.mod_pos_bound (Position.number p + 1) (2 ^ 64) ltac:(lia)).
    unfold uint64_max. lia.
Qed.

Lemma Position_incr_keeps_order_witness :
  stageOrdered (Position.make (Some 1%nat) 10) /\
  stageOrdered (Position.incr (Position.make (Some 1%nat) 10)).
Proof.
  assert (Ho : stageOrdered (Position.make (Some 1%nat) 10)) by (intros H; discriminate H).
  assert (Hr : Position.in_range (Position.number (Position.make (Some 1%nat) 10)))
    by (unfold Position.in_range, uint64_max; cbn; lia).
  split; [exact Ho|].
  exact (proj1 (Position_incr_keeps_order (Position.make (Some 1%nat) 10) Ho Hr)).
Defined.

(** ** Preparation from a valid position, and the queue *)

Section Preparation.

Context {W : Type} (E : Env W).

Lemma emits_nothing {A} (m : M W A) (s : Sys W) :
  emits (fun _ => False) m -> sent (m s) = [].
Proof.
  intros H. specialize (H s). destruct (sent (m s)) as [|e l]; [reflexivity|].
  inversion H as [|? ? Hf]. contradiction.
Qed.

Lemma emits_continuePosition aset sw pos :
  emits (fun _ => False) (continuePosition E aset sw pos).
Proof. unfold continuePosition, switchCandidate. emits_auto. Qed.

Lemma emits_openChunk pos cm : emits (fun _ => False) (openChunk E pos cm).
Proof. unfold openChunk. emits_auto. Qed.

(** Continuing from a valid position sends nothing. *)
Lemma prepareChunk_valid_silent sw pos cm (s : Sys W) :
  Position.isValid pos = true ->
  sent (prepareChunk E sw pos cm s) = [].
Proof.
  intros Hv. apply emits_nothing. unfold prepareChunk. rewrite Hv. cbn [negb].
  emits_auto; first [apply emits_continuePosition | apply emits_openChunk].
Qed.

(** The queue after the fill: what was there, or the one prepared entry. *)
Lemma fillChunksSequence_queue sw cm (s : Sys W) u s1 l1 :
  fillChunksSequence E sw cm s = (u, s1, l1) ->
  Position.isValid (next (trk s)) = true ->
  l1 = [] /\
  trk s1 = set_chunkssequence
             (match chunkssequence (trk s) with
              | [] => [result (prepareChunk E sw (next (trk s)) cm s)]
              | q => q
              end) (trk s).
Proof.
  unfold fillChunksSequence. intros H Hv.
  apply bind_inv in H as (t & s0 & l0 & l0' & Hget & H & ->).
  unfold getTracker in Hget. injection Hget as <- <- <-.
  destruct (chunkssequence (trk s)) as [|e q] eqn:Hq.
  - apply bind_inv in H as (c & sa & la & la' & Hprep & H & ->).
    unfold modify in H. injection H as <- <- <-.
    pose proof (prepareChunk_trk E sw (next (trk s)) cm s) as Htrk.
    pose proof (prepareChunk_valid_silent sw (next (trk s)) cm s Hv) as Hsil.
    rewrite Hprep in Htrk, Hsil |- *. cbn [result final sent fst snd] in *.
    subst la. split; [reflexivity|].
    cbn [trk]. rewrite Htrk. unfold push_back. rewrite Hq. reflexivity.
  - unfold ret in H. injection H as <- <- <-. split; [reflexivity|].
    rewrite <- Hq. now destruct (trk s).
Qed.

End Preparation.

(** ** The notifications of one [getNextChunk] *)

Section Notifications.

Context {W : Type} (E : Env W).

(** The notifications of a delivery, in the order they are sent. *)
Lemma deliver_delivered aset chunk ck (s : Sys W) rc s' l :
  deliver E aset chunk ck s = (Some rc, s', l) ->
  exists lf,
    (lf = [] \/
     exists f, lf = [FormatChangedEvent f] /\ f <> Unknown /\ format (trk s') = f) /\
    events l
    = (if switchedOf (trk s) chunk
       then [RepresentationSwitchEvent (Position.rep (next (trk s)))
                                       (Position.rep (ChunkEntry.pos chunk))]
       else [])
      ++ lf
      ++ (if gapOf (trk s) chunk then [SegmentGapEvent] else [])
      ++ (if discontinuityOf (trk s) ck
          then [DiscontinuityEvent (discontinuitySequenceNumber ck)] else [])
      ++ [SegmentChangedEvent aset (discontinuitySequenceNumber ck)
            (ChunkEntry.starttime chunk) (ChunkEntry.duration chunk)
            (ChunkEntry.displaytime chunk)].
Proof.
  intros H.
  remember (switchedOf (trk s) chunk) as sw eqn:Hsw.
  remember (gapOf (trk s) chunk) as g eqn:Hg.
  remember (discontinuityOf (trk s) ck) as d eqn:Hd.
  unfold gapOf in Hg. rewrite <- Hsw in Hg.
  unfold switchedOf in Hsw. unfold discontinuityOf in Hd.
  unfold deliver in H.
  apply bind_inv in H as (t0 & s0 & l0 & l0' & Hget & H & ->).
  unfold getTracker in Hget. injection Hget as <- <- <-.
  cbv zeta in H. rewrite <- Hsw in H.
  apply bind_inv in H as ([] & sa & la & la' & Hmove & H & ->).
  rewrite moveCursors_eq in Hmove. injection Hmove as <- <-.
  apply bind_inv in H as (ta & sb & lb & lb' & Hget & H & ->).
  unfold getTracker in Hget. injection Hget as <- <- <-.
  cbn [trk] in H.
  set (t1 := set_next (ChunkEntry.pos chunk) (set_current (ChunkEntry.pos chunk)
               (if sw then set_initializing true (trk s) else trk s))) in *.
  destruct (StreamFormat_eqb (format t1) Unsupported); [discriminate H|].
  apply bind_inv in H as ([cf rc'] & sc & lc & lc' & Hprobe & H & ->).
  apply probeFormat_inv in Hprobe as (-> & Hsc & _).
  apply bind_inv in H as ([] & sd & ld & ld' & Hrec & H & ->).
  rewrite recordFormat_eq in Hrec.
  apply bind_inv in H as ([] & se & le & le' & Hann & H & ->).
  unfold ret in H. injection H as <- <- <-.
  apply announceSegment_inv in Hann. cbv zeta in Hann.
  destruct Hann as [Ht' ->]. cbn [trk] in Hsc.
  assert (Hinit_sc : initializing (trk sc) = initializing (trk s) || sw).
  { unfold t1 in Hsc.
    destruct Hsc as [-> | [f ->]]; destruct sw; cbn;
      rewrite ?orb_true_r, ?orb_false_r; reflexivity. }
  assert (Hfmt : (ld = [] /\ initializing (trk sd) = initializing (trk sc)) \/
                 (ld = [(FormatChangedEvent cf, set_format cf (trk sc))] /\
                  cf <> Unknown /\ format (trk sd) = cf /\
                  initializing (trk sd) = initializing (trk sc))).
  { destruct (negb (StreamFormat_eqb cf (format (trk sc)))
              && negb (StreamFormat_eqb cf Unknown)) eqn:Hc;
      injection Hrec as <- <-.
    - right. apply andb_true_iff in Hc as [_ Hc].
      apply negb_true_iff, StreamFormat_eqb_neq in Hc. auto.
    - left. auto. }
  assert (Hinit : initializing (trk sd) = initializing (trk s) || sw).
  { rewrite <- Hinit_sc. destruct Hfmt as [[_ ->] | (_ & _ & _ & ->)]; reflexivity. }
  assert (Hgap : (if initializing (trk sd) then false
                  else negb (Position.number (next (trk s))
                             =? Position.number (ChunkEntry.pos chunk)))
                 = g).
  { rewrite Hinit, Hg. destruct (initializing (trk s) || sw); reflexivity. }
  assert (Hdisc : (if discontinuity ck && Position.isValid (current (trk s))
                      && (Position.number (current (trk s))
                          =? Position.number (next (trk s)))
                   then false
                   else discontinuity ck && Position.isValid (current (trk s)))
                  = d).
  { rewrite Hd.
    destruct (discontinuity ck), (Position.isValid (current (trk s))),
             (Position.number (current (trk s)) =? Position.number (next (trk s)));
      reflexivity. }
  rewrite Hgap in Ht'. rewrite Hgap, Hdisc.
  exists (events ld). split.
  - destruct Hfmt as [[-> _] | (-> & Hne & Hf & _)]; [left; reflexivity|].
    right. exists cf. repeat split; try assumption.
    rewrite Ht'. destruct g; cbn; exact Hf.
  - unfold events. rewrite !map_app. cbn [map fst app].
    destruct sw, g, d; cbn [map fst app]; rewrite ?app_nil_r; reflexivity.
Qed.

(** The same for the whole call, whose preparation sends nothing. *)
Lemma getNextChunk_delivered sw cm (s : Sys W) r s' l :
  getNextChunk E sw cm s = (Some r, s', l) ->
  exists aset entry ck lf,
    adaptationSet (trk s) = Some aset /\
    hd_error (chunkssequence (trk (final (fillChunksSequence E sw cm s)))) = Some entry /\
    ChunkEntry.chunk entry = Some ck /\
    (lf = [] \/
     exists f, lf = [FormatChangedEvent f] /\ f <> Unknown /\ format (trk s') = f) /\
    events l
    = (if switchedOf (trk s) entry
       then [RepresentationSwitchEvent (Position.rep (next (trk s)))
                                       (Position.rep (ChunkEntry.pos entry))]
       else [])
      ++ lf
      ++ (if gapOf (trk s) entry then [SegmentGapEvent] else [])
      ++ (if discontinuityOf (trk s) ck
          then [DiscontinuityEvent (discontinuitySequenceNumber ck)] else [])
      ++ [SegmentChangedEvent aset (discontinuitySequenceNumber ck)
            (ChunkEntry.starttime entry) (ChunkEntry.duration entry)
            (ChunkEntry.displaytime entry)].
Proof.
  intros H. apply getNextChunk_cases in H.
  destruct H as [(Hb & _) | H]; [discriminate|].
  destruct H as (aset & u & s1 & l1 & entry & Ha & Hv & Hfill & Hhd & H).
  destruct H as [(_ & Hb & _) | (ck & l2 & Hev & Hck & Hdel & ->)]; [discriminate|].
  destruct (fillChunksSequence_queue E _ _ _ _ _ _ Hfill Hv) as [-> Hq].
  apply deliver_delivered in Hdel as (lf & Hlf & Hl2).
  exists aset, entry, ck, lf.
  rewrite Hfill. cbn [final fst snd app].
  repeat (split; [assumption|]).
  rewrite Hl2, Hq. reflexivity.
Qed.


(** X4: the notifications of a call that hands out a chunk are, in this
    order, at most one RepresentationSwitch (from the representation [next]
    was on to that of the delivered entry), at most one FormatChanged (never
    for Unknown, and carrying the format the tracker has recorded on return),
    at most one SegmentGap, at most one Discontinuity, and last exactly one
    SegmentChanged; nothing else is sent. *)
Theorem getNextChunk_notification_order sw cm (s : Sys W) (r : ChunkInterface) :
  result (getNextChunk E sw cm s) = Some r ->
  exists aset entry ck lf,
    adaptationSet (trk s) = Some aset /\
    hd_error (chunkssequence (trk (final (fillChunksSequence E sw cm s)))) = Some entry /\
    ChunkEntry.chunk entry = Some ck /\
    (lf = [] \/
     exists f, lf = [FormatChangedEvent f] /\ f <> Unknown /\
               format (trk (final (getNextChunk E sw cm s))) = f) /\
    events (sent (getNextChunk E sw cm s))
    = (if switchedOf (trk s) entry
       then [RepresentationSwitchEvent (Position.rep (next (trk s)))
                                       (Position.rep (ChunkEntry.pos entry))]
       else [])
      ++ lf
      ++ (if gapOf (trk s) entry then [SegmentGapEvent] else [])
      ++ (if discontinuityOf (trk s) ck
          then [DiscontinuityEvent (discontinuitySequenceNumber ck)] else [])
      ++ [SegmentChangedEvent aset (discontinuitySequenceNumber ck)
            (ChunkEntry.starttime entry) (ChunkEntry.duration entry)
            (ChunkEntry.displaytime entry)].
Proof.
  intros Hr.
  destruct (getNextChunk E sw cm s) as [[b s'] l] eqn:H.
  cbn [result final sent fst snd] in *. subst b.
  exact (getNextChunk_delivered sw cm s r s' l H).
Qed.

(** X5: a call that hands out a chunk while [current] names no
    representation always announces a RepresentationSwitch, and a call that
    announces a RepresentationSwitch never reports a gap. *)
Theorem switch_announced_without_gap sw cm (s : Sys W) (r : ChunkInterface) :
  result (getNextChunk E sw cm s) = Some r ->
  (Position.rep (current (trk s)) = None ->
   exists b, In (RepresentationSwitchEvent (Position.rep (next (trk s))) b)
                (events (sent (getNextChunk E sw cm s)))) /\
  ((exists a b, In (RepresentationSwitchEvent a b)
                   (events (sent (getNextChunk E sw cm s)))) ->
   ~ In SegmentGapEvent (events (sent (getNextChunk E sw cm s)))).
Proof.
  intros Hr.
  destruct (getNextChunk E sw cm s) as [[b s'] l] eqn:H.
  cbn [result final sent fst snd] in *. subst b.
  apply getNextChunk_delivered in H
    as (aset & entry & ck & lf & _ & _ & _ & Hlf & ->).
  assert (Hsg : switchedOf (trk s) entry = true -> gapOf (trk s) entry = false).
  { intros Hs. unfold gapOf. rewrite Hs, orb_true_r. reflexivity. }
  split.
  - intros Hnone. exists (Position.rep (ChunkEntry.pos entry)).
    assert (Hs : switchedOf (trk s) entry = true).
    { unfold switchedOf. rewrite Hnone. apply orb_true_r. }
    rewrite Hs. now left.
  - intros (a & b & Hin).
    destruct (switchedOf (trk s) entry) eqn:Hs.
    + rewrite (Hsg eq_refl).
      destruct Hlf as [-> | (f & -> & _)];
        destruct (discontinuityOf (trk s) ck); cbn; intuition congruence.
    + exfalso. revert Hin.
      destruct Hlf as [-> | (f & -> & _)];
        destruct (gapOf (trk s) entry), (discontinuityOf (trk s) ck);
        cbn; intuition congruence.
Qed.

(** X6: a call that returns null while the recorded format is not
    Unsupported sends no notification and leaves the cursors, the
    initializing state and the recorded format as they were; the entry that
    could not be delivered is dropped, so an empty queue is empty again. *)
Theorem getNextChunk_null_is_quiet sw cm (s : Sys W) :
  result (getNextChunk E sw cm s) = None ->
  format (trk s) <> Unsupported ->
  sent (getNextChunk E sw cm s) = [] /\
  current (trk (final (getNextChunk E sw cm s))) = current (trk s) /\
  next (trk (final (getNextChunk E sw cm s))) = next (trk s) /\
  initializing (trk (final (getNextChunk E sw cm s))) = initializing (trk s) /\
  format (trk (final (getNextChunk E sw cm s))) = format (trk s) /\
  (chunkssequence (trk s) = [] ->
   chunkssequence (trk (final (getNextChunk E sw cm s))) = []).
Proof.
  intros Hr Hfmt.
  destruct (getNextChunk E sw cm s) as [[b s'] l] eqn:H.
  cbn [result final sent fst snd] in *. subst b.
  apply getNextChunk_cases in H.
  destruct H as [(_ & -> & -> & _) | H]; [auto 10|].
  destruct H as (aset & u & s1 & l1 & entry & Ha & Hv & Hfill & Hhd & H).
  destruct (fillChunksSequence_queue E _ _ _ _ _ _ Hfill Hv) as [-> Hq].
  destruct H as [(_ & _ & Ht' & ->) | (ck & l2 & Hev & Hck & Hdel & ->)].
  - rewrite Ht', Hq. cbn. repeat split. intros ->. reflexivity.
  - apply deliver_cases in Hdel. cbv zeta in Hdel.
    destruct Hdel as [(Hu & _) | (_ & rc & t2 & lf & Hb & _)]; [|discriminate].
    rewrite Hq in Hu. cbn in Hu. contradiction.
Qed.

End Notifications.

Lemma getNextChunk_notification_order_witness :
  result (getNextChunk (Demo.env Demo.moved) true 0%nat (Demo.midstream (Codec 2)))
  = Some (PlainChunk {| chunk_id := 100; discontinuity := true;
                        discontinuitySequenceNumber := 7; streamFormat := Codec 1 |}) /\
  exists aset entry ck lf,
    adaptationSet (trk (Demo.midstream (Codec 2))) = Some aset /\
    ChunkEntry.chunk entry = Some ck /\
    events (sent (getNextChunk (Demo.env Demo.moved) true 0%nat (Demo.midstream (Codec 2))))
    = (if switchedOf (trk (Demo.midstream (Codec 2))) entry
       then [RepresentationSwitchEvent
               (Position.rep (next (trk (Demo.midstream (Codec 2)))))
               (Position.rep (ChunkEntry.pos entry))]
       else [])
      ++ lf
      ++ (if gapOf (trk (Demo.midstream (Codec 2))) entry then [SegmentGapEvent] else [])
      ++ (if discontinuityOf (trk (Demo.midstream (Codec 2))) ck
          then [DiscontinuityEvent (discontinuitySequenceNumber ck)] else [])
      ++ [SegmentChangedEvent aset (discontinuitySequenceNumber ck)
            (ChunkEntry.starttime entry) (ChunkEntry.duration entry)
            (ChunkEntry.displaytime entry)].
Proof.
  split; [reflexivity|].
  destruct (getNextChunk_notification_order (Demo.env Demo.moved) true 0%nat
              (Demo.midstream (Codec 2)) _ eq_refl)
    as (aset & entry & ck & lf & Ha & _ & Hck & _ & Hev).
  exists aset, entry, ck, lf. repeat split; assumption.
Defined.

Lemma switch_announced_without_gap_witness :
  Position.rep (current (trk (final (performAll (Demo.env Demo.moved)
                                       [CallSetStartPosition] Demo.cold)))) = None /\
  exists b,
    In (RepresentationSwitchEvent (Some 1%nat) b)
       (events (sent (getNextChunk (Demo.env Demo.moved) true 0%nat
          (final (performAll (Demo.env Demo.moved) [CallSetStartPosition] Demo.cold))))).
Proof.
  split; [reflexivity|].
  exact (proj1 (switch_announced_without_gap (Demo.env Demo.moved) true 0%nat
                  (final (performAll (Demo.env Demo.moved) [CallSetStartPosition] Demo.cold))
                  _ eq_refl) eq_refl).
Defined.

Lemma getNextChunk_null_is_quiet_witness :
  format (trk Demo.cold) <> Unsupported /\
  sent (getNextChunk (Demo.env Demo.plain) true 0%nat Demo.cold) = [].
Proof.
  assert (Hf : format (trk Demo.cold) <> Unsupported) by discriminate.
  split; [exact Hf|].
  exact (proj1 (getNextChunk_null_is_quiet (Demo.env Demo.plain) true 0%nat Demo.cold
                  eq_refl Hf)).
Defined.


(** ** Repositioning *)

Section Repositioning.

Context {W : Type} (E : Env W).

Lemma reset_trk (s : Sys W) :
  trk (final (reset E s))
  = set_format Unknown
      (set_initializing true
         (set_chunkssequence []
            (set_next Position.default (set_current Position.default (trk s))))).
Proof.
  unfold reset.
  assert (Hget : @getTracker W s = (trk s, s, [])) by reflexivity.
  rewrite (bind_eq _ _ _ _ _ _ Hget).
  set (ev := RepresentationSwitchEvent (Position.rep (current (trk s))) None).
  rewrite (bind_eq _ _ _ _ _ _ (eq_refl : notify E ev s = (tt, _, _))).
  rewrite (bind_eq _ _ _ _ _ _ (eq_refl : modify (set_current Position.default) _ = (tt, _, _))).
  rewrite (bind_eq _ _ _ _ _ _ (eq_refl : modify (set_next Position.default) _ = (tt, _, _))).
  cbn [result final sent fst snd world trk].
  match goal with
  | |- context [bind (resetChunksSequence E) _ ?x] =>
      destruct (resetChunksSequence_spec E x) as [Hs Ht];
      rewrite (bind_eq _ _ _ _ _ _ (triple_eta (resetChunksSequence E x)))
  end.
  cbn [result final sent fst snd app bind modify ret trk world] in *.
  rewrite Ht. reflexivity.
Qed.

Lemma resetChunksSequence_empty (s : Sys W) :
  chunkssequence (trk s) = [] -> resetChunksSequence E s = (tt, s, []).
Proof.
  intros Hq. unfold resetChunksSequence. run_m. rewrite Hq. reflexivity.
Qed.

(** [getPlaybackTime(true)] when [current] names no representation. *)
Lemma getPlaybackTime_next_cold (s : Sys W) :
  Position.rep (current (trk s)) = None ->
  getPlaybackTime E true s
  = (resumeTime E (trk s) (Position.number (next (trk s))) (world s),
     mkSys (snd (logic_getNextRepresentation E (logic (trk s)) (adaptationSet (trk s))
                   None (world s)))
           (trk s),
     []).
Proof.
  intros Hc. unfold getPlaybackTime, resumeTime. run_m. rewrite Hc. cbn.
  destruct (fst (logic_getNextRepresentation E (logic (trk s)) (adaptationSet (trk s))
                   None (world s))) as [r|]; cbn; [|reflexivity].
  destruct (rep_getPlaybackTimeDurationBySegmentNumber E r _ _) as [[time d]|];
    reflexivity.
Qed.

(** What [setPosition] does, with the world [w3] left by the release of the
    queued chunks. *)
Lemma setPosition_spec pos restarted (s : Sys W) :
  exists w3,
    (chunkssequence (trk s) = [] -> w3 = world s) /\
    trk (final (setPosition E pos restarted s)) = repositioned pos restarted (trk s) /\
    sent (setPosition E pos restarted s)
    = [(PositionChangedEvent
          (resumeTime E (trk s) (Position.number pos) w3),
        repositioned pos restarted (trk s))].
Proof.
  unfold setPosition.
  set (t2 := set_next pos (set_current Position.default
               (if restarted then set_initializing true (trk s) else trk s))).
  assert (H1 : bind (when restarted (modify (set_initializing true)))
                 (fun _ => bind (modify (set_current Position.default))
                   (fun _ => modify (set_next pos))) s
               = (tt, mkSys (world s) t2, [])).
  { destruct restarted; reflexivity. }
  assert (Hassoc : forall (k : M W unit),
             bind (when restarted (modify (set_initializing true)))
               (fun _ => bind (modify (set_current Position.default))
                 (fun _ => bind (modify (set_next pos)) (fun _ => k))) s
             = (result (k (mkSys (world s) t2)), final (k (mkSys (world s) t2)),
                sent (k (mkSys (world s) t2)))).
  { intros k. unfold t2. destruct restarted; run_m; cbn;
      now destruct (k _) as [[? ?] ?]. }
  rewrite Hassoc. cbn [result final sent fst snd].
  destruct (resetChunksSequence_spec E (mkSys (world s) t2)) as [Hs Ht].
  rewrite (bind_eq _ _ _ _ _ _ (triple_eta (resetChunksSequence E (mkSys (world s) t2)))).
  cbn [result final sent fst snd]. rewrite Hs.
  set (s3 := final (resetChunksSequence E (mkSys (world s) t2))) in *.
  cbn [trk] in Ht.
  assert (Hcold : Position.rep (current (trk s3)) = None).
  { rewrite Ht. unfold t2. reflexivity. }
  rewrite (bind_eq _ _ _ _ _ _ (getPlaybackTime_next_cold s3 Hcold)).
  cbn [result final sent fst snd app notify trk world].
  exists (world s3). rewrite Ht.
  assert (Hrep : set_chunkssequence [] t2 = repositioned pos restarted (trk s))
    by reflexivity.
  rewrite Hrep. split; [|split].
  - intros Hq. unfold s3.
    rewrite resetChunksSequence_empty; [reflexivity|].
    cbn [trk]. unfold t2. destruct restarted; exact Hq.
  - reflexivity.
  - unfold resumeTime, repositioned. destruct restarted; reflexivity.
Qed.

End Repositioning.

Section Seeking.

Context {W : Type} (E : Env W).

(** X7: [setPosition] invalidates [current], puts [next] on the given
    position, empties the queue, enters the initializing state when
    [restarted] is set, keeps the recorded format, and sends exactly one
    PositionChanged, after the tracker was repositioned.  The time it carries
    is read from the representation the adaptation logic proposes for a null
    current one, not from the representation of the given position. *)
Theorem setPosition_effect pos restarted (s : Sys W) :
  current (trk (final (setPosition E pos restarted s))) = Position.default /\
  next (trk (final (setPosition E pos restarted s))) = pos /\
  chunkssequence (trk (final (setPosition E pos restarted s))) = [] /\
  initializing (trk (final (setPosition E pos restarted s)))
  = restarted || initializing (trk s) /\
  format (trk (final (setPosition E pos restarted s))) = format (trk s) /\
  exists w3,
    (chunkssequence (trk s) = [] -> w3 = world s) /\
    sent (setPosition E pos restarted s)
    = [(PositionChangedEvent (resumeTime E (trk s) (Position.number pos) w3),
        trk (final (setPosition E pos restarted s)))].
Proof.
  destruct (setPosition_spec E pos restarted s) as (w3 & Hw & Ht & Hs).
  rewrite Ht, Hs. unfold repositioned.
  repeat split; try (destruct restarted; reflexivity).
  exists w3. split; [exact Hw | reflexivity].
Qed.

Lemma getStartPosition_trk (s : Sys W) : trk (final (getStartPosition E s)) = trk s.
Proof. exact (keeps_getStartPosition E (fun t => t = trk s) s eq_refl). Qed.

Lemma emits_getStartPosition : emits isRepresentationUpdated (getStartPosition E).
Proof. unfold getStartPosition. emits_auto. Qed.

(** X8: [setStartPosition] returns true exactly when [next] is valid on
    return; it can only assign [next], and only sends RepresentationUpdated;
    when [next] is already valid it does nothing at all. *)
Theorem setStartPosition_effect (s : Sys W) :
  result (setStartPosition E s)
  = Position.isValid (next (trk (final (setStartPosition E s)))) /\
  (exists p, trk (final (setStartPosition E s)) = set_next p (trk s)) /\
  Forall (fun e => isRepresentationUpdated (fst e)) (sent (setStartPosition E s)) /\
  (Position.isValid (next (trk s)) = true -> setStartPosition E s = (true, s, [])).
Proof.
  unfold setStartPosition.
  assert (Hget : @getTracker W s = (trk s, s, [])) by reflexivity.
  rewrite (bind_eq _ _ _ _ _ _ Hget). cbn [app].
  assert (Hsame : trk s = set_next (next (trk s)) (trk s)) by now destruct (trk s).
  destruct (Position.isValid (next (trk s))) eqn:Hv.
  - cbn [ret result final sent fst snd].
    rewrite Hv. split; [reflexivity|].
    split; [exists (next (trk s)); exact Hsame|]. split; [constructor|].
    intros _. now destruct s.
  - pose proof (getStartPosition_trk s) as Htrk.
    pose proof (emits_getStartPosition s) as Hem.
    rewrite (bind_eq _ _ _ _ _ _ (triple_eta (getStartPosition E s))).
    destruct (getStartPosition E s) as [[p s1] l1].
    cbn [result final sent fst snd] in *.
    destruct (Position.isValid p) eqn:Hp; cbn [negb].
    + cbn. rewrite Hp, Htrk, app_nil_r. split; [reflexivity|].
      split; [exists p; reflexivity|]. split; [exact Hem | discriminate].
    + cbn. rewrite Htrk, Hv, app_nil_r. split; [reflexivity|].
      split; [exists (next (trk s)); exact Hsame|]. split; [exact Hem | discriminate].
Qed.

(** The two ways out of [setPositionByTime]. *)
Lemma setPositionByTime_shape time restarted tryonly (s : Sys W) :
  (result (setPositionByTime E time restarted tryonly s) && negb tryonly = false /\
   trk (final (setPositionByTime E time restarted tryonly s)) = trk s /\
   Forall (fun e => isRepresentationUpdated (fst e))
          (sent (setPositionByTime E time restarted tryonly s)))
  \/
  (result (setPositionByTime E time restarted tryonly s) && negb tryonly = true /\
   exists r n pre time',
     trk (final (setPositionByTime E time restarted tryonly s))
     = repositioned (Position.make (Some r) n) restarted (trk s) /\
     Forall (fun e => isRepresentationUpdated (fst e)) pre /\
     sent (setPositionByTime E time restarted tryonly s)
     = pre ++ [(PositionChangedEvent time',
                repositioned (Position.make (Some r) n) restarted (trk s))]).
Proof.
  unfold setPositionByTime. run_m. cbn -[Position.isValid setPosition].
  destruct (negb (Position.isValid _)); cbn -[Position.isValid setPosition].
  all: match goal with
       | |- context [match ?x with Some _ => _ | None => _ end] =>
           destruct x as [r|] eqn:Hrep
       end; cbn -[Position.isValid setPosition];
       try (left; repeat split; constructor).
  all: match goal with
       | |- context [if rep_needsUpdate E ?r ?n ?w then _ else _] =>
           destruct (rep_needsUpdate E r n w) eqn:Hnu
       end; cbn -[Position.isValid setPosition].
  all: try match goal with
       | |- context [if negb (fst ?x) then _ else _] =>
           destruct (fst x) eqn:Hok
       end; cbn -[Position.isValid setPosition];
       try (left; repeat split; constructor).
  all: match goal with
       | |- context [match rep_getSegmentNumberByTime E ?r ?t ?w with _ => _ end] =>
           destruct (rep_getSegmentNumberByTime E r t w) as [n|] eqn:Hfound
       end; cbn -[Position.isValid setPosition];
       try (left; repeat split; repeat constructor; fail).
  all: destruct tryonly; cbn -[Position.isValid setPosition];
       try (left; repeat split; repeat constructor; fail).
  all: match goal with
       | |- context [setPosition E ?p ?b ?x] =>
           destruct (setPosition_spec E p b x) as (w3 & _ & Ht & Hs);
           destruct (setPosition E p b x) as [[u sx] lx]
       end;
       cbn [result final sent fst snd trk app] in *; subst lx;
       right; split; [reflexivity|]; exists r, n.
  all: try (exists [], (resumeTime E (trk s) n w3); rewrite Ht;
            split; [reflexivity|]; split; [constructor | reflexivity]).
  all: exists [(RepresentationUpdatedEvent r, trk s)], (resumeTime E (trk s) n w3);
       rewrite Ht; split; [reflexivity|]; split; [repeat constructor | reflexivity].
Qed.

(** X9: a seek by time that fails, or that only tries, leaves every field of
    the tracker as it was and announces no position; a seek that succeeds
    and commits leaves the tracker as [setPosition] does, with [next] on a
    fresh position (neither init nor index sent) of a non-null
    representation, and its last notification is the PositionChanged. *)
Theorem setPositionByTime_effect time restarted tryonly (s : Sys W) :
  (result (setPositionByTime E time restarted tryonly s) = false \/ tryonly = true ->
   trk (final (setPositionByTime E time restarted tryonly s)) = trk s /\
   Forall (fun e => isRepresentationUpdated (fst e))
          (sent (setPositionByTime E time restarted tryonly s))) /\
  (result (setPositionByTime E time restarted tryonly s) = true -> tryonly = false ->
   exists r n pre time',
     next (trk (final (setPositionByTime E time restarted tryonly s)))
     = Position.make (Some r) n /\
     current (trk (final (setPositionByTime E time restarted tryonly s)))
     = Position.default /\
     chunkssequence (trk (final (setPositionByTime E time restarted tryonly s))) = [] /\
     events (sent (setPositionByTime E time restarted tryonly s))
     = events pre ++ [PositionChangedEvent time'] /\
     Forall (fun e => isRepresentationUpdated (fst e)) pre).
Proof.
  destruct (setPositionByTime_shape time restarted tryonly s)
    as [(Hc & Ht & Hs) | (Hc & r & n & pre & time' & Ht & Hpre & Hs)].
  - split; [auto|]. intros Hr ->. rewrite Hr in Hc. discriminate.
  - apply andb_true_iff in Hc as [Hr Hto]. apply negb_true_iff in Hto.
    split.
    + intros [Hf | Hy]; congruence.
    + intros _ _. exists r, n, pre, time'. rewrite Ht, Hs.
      unfold repositioned, events. rewrite map_app.
      repeat split; try assumption; destruct restarted; reflexivity.
Qed.

End Seeking.

(** ** Invariants of any sequence of calls *)

Section Invariants.

Context {W : Type} (E : Env W).

Lemma performAll_keeps (P : SegmentTracker -> Prop) :
  (forall c, keeps P (perform E c)) -> forall cs, keeps P (performAll E cs).
Proof.
  intros Hc cs. induction cs as [|c cs IH]; intros s HP; [exact HP|].
  rewrite (proj2 (performAll_cons E c cs s)). apply IH, Hc, HP.
Qed.

Section Fields.

Variable P : SegmentTracker -> Prop.
Hypothesis P_init : forall b t, P t -> P (set_initializing b t).
Hypothesis P_current : forall p t, P t -> P (set_current p t).
Hypothesis P_next : forall p t, P t -> P (set_next p t).
Hypothesis P_queue : forall q t, P t -> P (set_chunkssequence q t).
Hypothesis P_format : forall f t, P t -> P (set_format f t).

(** A property that no assignment to the cursors, the queue, the format or
    the initializing flag can break survives [getNextChunk] and [reset]. *)
Lemma keeps_getNextChunk sw cm : keeps P (getNextChunk E sw cm).
Proof.
  intros s HP.
  destruct (getNextChunk E sw cm s) as [[b s'] l] eqn:H. cbn [final fst snd].
  apply getNextChunk_cases in H.
  destruct H as [(_ & -> & _) | H]; [exact HP|].
  destruct H as (aset & u & s1 & l1 & entry & Ha & Hv & Hfill & Hhd & H).
  pose proof (fillChunksSequence_inv _ _ _ _ _ _ _ Hfill) as ([q Hq] & _ & _).
  assert (HP1 : P (trk s1)) by (rewrite Hq; auto).
  destruct H as [(_ & _ & -> & _) | (ck & l2 & Hev & Hck & Hdel & ->)].
  - unfold pop_front. auto.
  - apply deliver_cases in Hdel. cbv zeta in Hdel.
    assert (HP2 : P (set_next (ChunkEntry.pos entry)
                       (set_current (ChunkEntry.pos entry)
                          (if switchedOf (trk s1) entry
                           then set_initializing true (trk s1) else trk s1)))).
    { destruct (switchedOf (trk s1) entry); auto. }
    destruct Hdel as [(_ & _ & -> & _) | (_ & rc & t2 & lf & _ & _ & Ht2 & _ & -> & _)].
    + exact HP2.
    + assert (HP3 : P t2) by (destruct Ht2 as [-> | [f ->]]; auto).
      destruct (gapOf (trk s1) entry); unfold pop_front; auto.
Qed.

Lemma keeps_reset : keeps P (reset E).
Proof. intros s HP. rewrite reset_trk. auto 10. Qed.

(** Every call that does not register a listener. *)
Lemma keeps_perform_fields c :
  (forall l, c <> CallRegisterListener l) ->
  (forall l, c <> CallSetAdaptationLogic l) ->
  keeps P (perform E c).
Proof.
  intros Hr Ha. destruct c; cbn [perform].
  1: apply keeps_getNextChunk.
  all: apply keeps_bind; [|intros ?; apply keeps_ret].
  - apply keeps_setPositionByTime; auto.
  - apply keeps_setPosition; auto.
  - apply keeps_setStartPosition; auto.
  - apply keeps_reset.
  - apply keeps_updateSelected.
  - apply keeps_getCurrentFormat.
  - apply keeps_getMinAheadTime.
  - apply keeps_getPlaybackTime.
  - apply keeps_bufferingAvailable.
  - apply keeps_notifyBufferingState.
  - apply keeps_notifyBufferingLevel.
  - now contradiction (Hr l).
  - now contradiction (Ha l).
  - apply keeps_call_.
Qed.

End Fields.

(** X10: whatever is called on a tracker, the adaptation set and the
    buffering logic it was constructed with stay bound to it, and the
    listeners registered so far stay registered, in the same order: the list
    only ever grows at its end. *)
Theorem binding_and_listeners_persist (cs : list (Call (W:=W))) (s : Sys W) :
  sameBinding (trk s) (trk (final (performAll E cs s))) /\
  exists tail,
    listeners (trk (final (performAll E cs s))) = listeners (trk s) ++ tail.
Proof.
  set (P := fun t => sameBinding (trk s) t /\
                     exists tail, listeners t = listeners (trk s) ++ tail).
  assert (HP0 : P (trk s)).
  { split; [repeat split|]. exists []. now rewrite app_nil_r. }
  refine (performAll_keeps P _ cs s HP0).
  intros c.
  destruct c as [| | | | | | | | | | | |l|l|];
    try (apply keeps_perform_fields; try discriminate;
         intros ? ? Ht; exact Ht).
  - cbn [perform]. apply keeps_bind; [|intros ?; apply keeps_ret].
    intros s1 [Hb [tail Hl]]. cbn. split; [exact Hb|].
    exists (tail ++ [l]). rewrite Hl, app_assoc. reflexivity.
  - cbn [perform]. apply keeps_bind; [|intros ?; apply keeps_ret].
    intros s1 [Hb [tail Hl]]. cbn. split; [exact Hb|].
    exists (tail ++ [l]). rewrite Hl, app_assoc. reflexivity.
Qed.

Lemma getNextChunk_slot sw cm (s : Sys W) :
  slotInvariant (trk s) -> slotInvariant (trk (final (getNextChunk E sw cm s))).
Proof.
  intros [Hlen Hfmt].
  assert (Hempty : forall t, chunkssequence t = [] -> slotInvariant t).
  { intros t Hq. unfold slotInvariant. rewrite Hq. cbn. split; [lia | congruence]. }
  destruct (getNextChunk E sw cm s) as [[b s'] l] eqn:H. cbn [final fst snd].
  apply getNextChunk_cases in H.
  destruct H as [(_ & -> & _) | H]; [now split|].
  destruct H as (aset & u & s1 & l1 & entry & Ha & Hv & Hfill & Hhd & H).
  destruct (fillChunksSequence_queue E _ _ _ _ _ _ Hfill Hv) as [_ Hq].
  assert (Hone : exists e, chunkssequence (trk s1) = [e]).
  { rewrite Hq. cbn.
    destruct (chunkssequence (trk s)) as [|e [|e' q]]; cbn in Hlen; eauto; lia. }
  destruct Hone as [e He].
  destruct H as [(_ & _ & -> & _) | (ck & l2 & Hev & Hck & Hdel & ->)].
  - apply Hempty. cbn. now rewrite He.
  - apply deliver_cases in Hdel. cbv zeta in Hdel.
    destruct Hdel as [(Hu & _ & -> & _) | (_ & rc & t2 & lf & _ & _ & Ht2 & _ & -> & _)].
    + split.
      * destruct (switchedOf (trk s1) entry); cbn; rewrite He; cbn; lia.
      * intros _. destruct (switchedOf (trk s1) entry); exact Hu.
    + apply Hempty.
      assert (Hq2 : chunkssequence t2 = [e]).
      { destruct Ht2 as [-> | [f ->]]; destruct (switchedOf (trk s1) entry); exact He. }
      destruct (gapOf (trk s1) entry); cbn; rewrite Hq2; reflexivity.
Qed.

(** X11: the lookahead queue is a single slot.  Through any sequence of
    calls it never holds more than one entry, and between two calls it holds
    one only while the recorded format is Unsupported; otherwise every call
    returns with the queue empty. *)
Theorem lookahead_slot_invariant (cs : list (Call (W:=W))) (s : Sys W) :
  slotInvariant (trk s) ->
  slotInvariant (trk (final (performAll E cs s))).
Proof.
  apply (performAll_keeps slotInvariant). clear cs s.
  assert (Hempty : forall t, chunkssequence t = [] -> slotInvariant t).
  { intros t Hq. unfold slotInvariant. rewrite Hq. cbn. split; [lia | congruence]. }
  intros c.
  destruct c as [sw cm | time r t | pos r | | | | | | | | | | l | l | f];
    cbn [perform].
  1: exact (getNextChunk_slot sw cm).
  all: apply keeps_bind; [|intros ?; apply keeps_ret].
  - intros s HI.
    destruct (setPositionByTime_shape E time r t s)
      as [(_ & -> & _) | (_ & r' & n & pre & time' & -> & _)].
    + exact HI.
    + now apply Hempty.
  - intros s _. destruct (setPosition_spec E pos r s) as (w3 & _ & -> & _).
    now apply Hempty.
  - apply keeps_setStartPosition. intros p t0 Ht. exact Ht.
  - intros s _. apply Hempty. rewrite reset_trk. reflexivity.
  - apply keeps_updateSelected.
  - apply keeps_getCurrentFormat.
  - apply keeps_getMinAheadTime.
  - apply keeps_getPlaybackTime.
  - apply keeps_bufferingAvailable.
  - apply keeps_notifyBufferingState.
  - apply keeps_notifyBufferingLevel.
  - apply keeps_registerListener. intros ? ? Ht. exact Ht.
  - apply keeps_setAdaptationLogic; intros ? ? Ht; exact Ht.
  - apply keeps_call_.
Qed.

End Invariants.

Lemma lookahead_slot_invariant_witness :
  slotInvariant (trk Demo.cold) /\
  slotInvariant
    (trk (final (performAll (Demo.env Demo.plain)
                   [CallSetStartPosition; CallGetNextChunk true 0%nat;
                    CallGetNextChunk true 0%nat]
                   Demo.cold))).
Proof.
  assert (H0 : slotInvariant (trk Demo.cold)).
  { split; [cbn; lia | intros H; now contradiction H]. }
  split; [exact H0|].
  exact (lookahead_slot_invariant (Demo.env Demo.plain) _ Demo.cold H0).
Defined.

(** ** Switching representation *)

Section Switching.

Context {W : Type} (E : Env W).

(** X12: when switching is allowed, the adaptation logic proposes another
    representation, the segment number translates (at once or after the
    refresh) and that representation has time ahead, the switch is made: the
    chunk is opened from a fresh position on the proposed representation,
    with the translated number and neither init nor index sent, so the new
    representation's init segment comes first. *)
Theorem prepareChunk_switch_performed pos cm (s : Sys W) aset c :
  adaptationSet (trk s) = Some aset ->
  Position.isValid pos = true ->
  set_isSegmentAligned E aset (world s) = true ->
  Position.init_sent pos = true ->
  Position.index_sent pos = true ->
  fst (logic_getNextRepresentation E (logic (trk s)) (Some aset)
         (Position.rep pos) (world s)) = Some c ->
  Some c <> Position.rep pos ->
  let w1 := snd (logic_getNextRepresentation E (logic (trk s)) (Some aset)
                   (Position.rep pos) (world s)) in
  let w2 := candidateRefreshed E c
              (rep_translateSegmentNumber E c (Position.number pos)
                 (Position.rep pos) w1) w1 in
  candidateNumber E c pos w1 <> uint64_max ->
  rep_getMinAheadTime E c (candidateNumber E c pos w1) w2 <> 0 ->
  prepareChunk E true pos cm s
  = openChunk E (Position.make (Some c) (candidateNumber E c pos w1)) cm
              (mkSys w2 (trk s)) /\
  (ChunkEntry.chunk (result (prepareChunk E true pos cm s)) <> None ->
   Position.rep (ChunkEntry.pos (result (prepareChunk E true pos cm s))) = Some c).
Proof.
  intros Ha Hv Hal Hi Hx Hc Hne w1 w2 Hnum Hahead.
  assert (Heq : prepareChunk E true pos cm s
                = openChunk E (Position.make (Some c) (candidateNumber E c pos w1)) cm
                            (mkSys w2 (trk s))).
  { assert (Hneb : rep_eqb (Some c) (Position.rep pos) = false).
    { destruct (rep_eqb (Some c) (Position.rep pos)) eqn:Heq; [|reflexivity].
      apply rep_eqb_eq in Heq. contradiction. }
    unfold prepareChunk, continuePosition, switchCandidate. run_m.
    rewrite Ha, Hv. cbn -[rep_eqb Position.isValid]. rewrite Hal, Hi, Hx.
    cbn -[rep_eqb Position.isValid]. rewrite Ha, Hc. cbn -[rep_eqb Position.isValid].
    rewrite Hneb. cbn -[rep_eqb Position.isValid].
    fold w1.
    unfold candidateNumber in *. subst w2. unfold candidateRefreshed in *.
    set (n0 := rep_translateSegmentNumber E c (Position.number pos)
                 (Position.rep pos) w1) in *.
    assert (Hval : forall n, Position.isValid (Position.make (Some c) n)
                             = negb (n =? uint64_max)).
    { intros n. unfold Position.isValid. cbn. now rewrite andb_true_r. }
    assert (Hopen : forall (r : ChunkEntry.t * Sys W * list Emitted),
               (let '(b, s2, l2) := r in (b, s2, l2)) = r).
    { now intros [[? ?] ?]. }
    rewrite Hval.
    destruct (rep_needsUpdate E c n0 w1) eqn:Hnu;
      destruct (n0 =? uint64_max) eqn:Hn0;
      cbn -[rep_eqb Position.isValid uint64_max] in *; rewrite Hval.
    all: match goal with
         | |- context [if negb (?a =? uint64_max) then _ else _] =>
             destruct (a =? uint64_max) eqn:Hn1
         end;
         cbn -[rep_eqb Position.isValid uint64_max].
    all: try (apply Z.eqb_eq in Hn1; contradiction).
    all: match goal with
         | |- context [rep_getMinAheadTime E ?r ?a ?w =? 0] =>
             destruct (rep_getMinAheadTime E r a w =? 0) eqn:Hz;
             [apply Z.eqb_eq in Hz; contradiction|]
         end.
    all: cbn -[rep_eqb Position.isValid uint64_max].
    all: rewrite Hval, Hn1; cbn -[rep_eqb Position.isValid uint64_max];
         now rewrite !Hopen. }
  split; [exact Heq|].
  rewrite Heq. intros Hchunk.
  now rewrite (openChunk_rep E _ cm _ Hchunk).
Qed.

(** X13: when switching is allowed but the adaptation logic proposes
    nothing, or proposes the representation the position is already on, the
    chunk is opened from the position as given. *)
Theorem prepareChunk_no_proposal pos cm (s : Sys W) aset :
  adaptationSet (trk s) = Some aset ->
  Position.isValid pos = true ->
  set_isSegmentAligned E aset (world s) = true ->
  Position.init_sent pos = true ->
  Position.index_sent pos = true ->
  fst (logic_getNextRepresentation E (logic (trk s)) (Some aset)
         (Position.rep pos) (world s)) = None
  \/ fst (logic_getNextRepresentation E (logic (trk s)) (Some aset)
            (Position.rep pos) (world s)) = Position.rep pos ->
  prepareChunk E true pos cm s
  = openChunk E pos cm
      (mkSys (snd (logic_getNextRepresentation E (logic (trk s)) (Some aset)
                     (Position.rep pos) (world s)))
             (trk s)).
Proof.
  intros Ha Hv Hal Hi Hx Hprop.
  assert (Hopen : forall (r : ChunkEntry.t * Sys W * list Emitted),
             (let '(b, s2, l2) := r in (b, s2, l2)) = r).
  { now intros [[? ?] ?]. }
  unfold prepareChunk, continuePosition, switchCandidate. run_m.
  rewrite Ha, Hv. cbn -[rep_eqb Position.isValid]. rewrite Hal, Hi, Hx.
  cbn -[rep_eqb Position.isValid]. rewrite Ha.
  destruct Hprop as [Hn | Hs]; [rewrite Hn | rewrite Hs].
  - cbn -[rep_eqb Position.isValid uint64_max].
    change (Position.isValid Position.default) with false.
    cbn -[rep_eqb Position.isValid uint64_max]. now rewrite !Hopen.
  - destruct (Position.rep pos) as [c|] eqn:Hr.
    + rewrite rep_eqb_refl. cbn -[rep_eqb Position.isValid uint64_max].
      assert (Hinv : forall n, n = uint64_max ->
                       Position.isValid (Position.make (Some c) n) = false).
      { intros n ->. unfold Position.isValid. cbn [Position.number Position.make].
        now rewrite Z.eqb_refl. }
      erewrite Hinv by reflexivity. cbn -[rep_eqb Position.isValid uint64_max].
      now rewrite !Hopen.
    + cbn -[rep_eqb Position.isValid uint64_max].
      change (Position.isValid Position.default) with false.
      cbn -[rep_eqb Position.isValid uint64_max]. now rewrite !Hopen.
Qed.

End Switching.

Lemma prepareChunk_switch_performed_witness :
  candidateNumber (Demo.env Demo.inviting) 2%nat
                  (Position.mk (Some 1%nat) 11 true true) 1%nat = 20 /\
  prepareChunk (Demo.env Demo.inviting) true (Position.mk (Some 1%nat) 11 true true)
               0%nat (Demo.midstream (Codec 1))
  = openChunk (Demo.env Demo.inviting) (Position.make (Some 2%nat) 20)
              0%nat (Demo.midstream (Codec 1)).
Proof.
  split; [reflexivity|].
  refine (proj1 (prepareChunk_switch_performed (Demo.env Demo.inviting)
            (Position.mk (Some 1%nat) 11 true true) 0%nat (Demo.midstream (Codec 1))
            0%nat 2%nat eq_refl eq_refl eq_refl eq_refl eq_refl eq_refl _ _ _)).
  - discriminate.
  - vm_compute. discriminate.
  - vm_compute. discriminate.
Defined.

Lemma prepareChunk_no_proposal_witness :
  fst (logic_getNextRepresentation (Demo.env Demo.plain) 0%nat (Some 0%nat)
         (Some 1%nat) 1%nat) = Some 1%nat /\
  prepareChunk (Demo.env Demo.plain) true (Position.mk (Some 1%nat) 11 true true)
               0%nat (Demo.midstream (Codec 1))
  = openChunk (Demo.env Demo.plain) (Position.mk (Some 1%nat) 11 true true)
              0%nat (Demo.midstream (Codec 1)).
Proof.
  split; [reflexivity|].
  refine (prepareChunk_no_proposal (Demo.env Demo.plain)
            (Position.mk (Some 1%nat) 11 true true) 0%nat (Demo.midstream (Codec 1))
            0%nat eq_refl eq_refl eq_refl eq_refl eq_refl _).
  right. reflexivity.
Defined.

(** ** Queries and maintenance *)

Section QueryFacts.

Context {W : Type} (E : Env W).

(** X14: the playback range can only be asked once a chunk has been handed
    out.  On a tracker that was just constructed or reset, and right after a
    [setPosition], [getMediaPlaybackRange] fails; after a [getNextChunk] that
    returned a chunk it is the answer of the representation that chunk came
    from.  It never changes anything. *)
Theorem getMediaPlaybackRange_after_delivery
        (range : RepId -> W -> option (Z * Z * Z)) :
  (forall s, justStarted E s -> getMediaPlaybackRange range s = (None, s, [])) /\
  (forall pos restarted s,
     result (getMediaPlaybackRange range (final (setPosition E pos restarted s)))
     = None) /\
  (forall sw cm s r,
     result (getNextChunk E sw cm s) = Some r ->
     exists entry rp,
       hd_error (chunkssequence (trk (final (fillChunksSequence E sw cm s)))) = Some entry /\
       Position.rep (ChunkEntry.pos entry) = Some rp /\
       getMediaPlaybackRange range (final (getNextChunk E sw cm s))
       = (range rp (world (final (getNextChunk E sw cm s))),
          final (getNextChunk E sw cm s), [])).
Proof.
  assert (Hnone : forall s, Position.rep (current (trk s)) = None ->
                            getMediaPlaybackRange range s = (None, s, [])).
  { intros s Hc. unfold getMediaPlaybackRange. run_m. now rewrite Hc. }
  split; [|split].
  - intros s [(l & bl & a & Ht) | (s0 & ->)]; apply Hnone.
    + now rewrite Ht.
    + now rewrite (proj1 (proj2 (reset_spec E s0))).
  - intros pos restarted s. rewrite Hnone; [reflexivity|].
    destruct (setPosition_spec E pos restarted s) as (w3 & _ & -> & _).
    reflexivity.
  - intros sw cm s r Hr.
    destruct (getNextChunk E sw cm s) as [[b s'] l] eqn:H.
    cbn [result final sent fst snd] in *. subst b.
    apply getNextChunk_Some in H.
    destruct H as (aset & entry & ck & seen & lpre & _ & _ & _ & Hhd & Hev & _
                   & _ & Hcur & _ & _ & Ht' & _).
    assert (Hpv : Position.isValid (ChunkEntry.pos entry) = true).
    { unfold ChunkEntry.isValid in Hev. now apply andb_true_iff in Hev. }
    apply Position_isValid_spec in Hpv as [_ Hrep].
    destruct (Position.rep (ChunkEntry.pos entry)) as [rp|] eqn:Hrp; [|congruence].
    exists entry, rp. split; [exact Hhd|]. split; [exact Hrp|].
    assert (Hc' : Position.rep (current (trk s')) = Some rp).
    { rewrite Ht'. destruct (gapOf (trk s) entry); cbn; now rewrite Hcur. }
    unfold getMediaPlaybackRange. run_m. now rewrite Hc'.
Qed.

(** X15: [updateSelected] never changes a field of the tracker.  Without a
    current representation it does nothing at all.  With one, it tests the
    need of an update for the number of [next] but schedules the next update
    for the number of [current]; it sends at most a RepresentationUpdated,
    when the update was needed and succeeded, followed by at most a
    RepresentationUpdateFailed, when the representation, asked after the
    update and its notification, can no longer be updated. *)
Theorem updateSelected_effect (s : Sys W) :
  trk (final (updateSelected E s)) = trk s /\
  (Position.rep (current (trk s)) = None -> updateSelected E s = (tt, s, [])) /\
  (forall r, Position.rep (current (trk s)) = Some r ->
     let nu := rep_needsUpdate E r (Position.number (next (trk s))) (world s) in
     let ok := fst (rep_runLocalUpdates E r (world s)) in
     let w1 := rep_scheduleNextUpdate E r (Position.number (current (trk s))) ok
                 (snd (rep_runLocalUpdates E r (world s))) in
     let w' := if nu
               then if ok
                    then world (final (notify E (RepresentationUpdatedEvent r)
                                         (mkSys w1 (trk s))))
                    else w1
               else world s in
     events (sent (updateSelected E s))
     = (if nu && ok then [RepresentationUpdatedEvent r] else [])
       ++ (if rep_canNoLongerUpdate E r w'
           then [RepresentationUpdateFailedEvent r] else []) /\
     world (final (updateSelected E s))
     = if rep_canNoLongerUpdate E r w'
       then world (final (notify E (RepresentationUpdateFailedEvent r)
                            (mkSys w' (trk s))))
       else w').
Proof.
  split; [|split].
  - exact (keeps_updateSelected E (fun t => t = trk s) s eq_refl).
  - intros Hc. unfold updateSelected. run_m. rewrite Hc. now destruct s.
  - intros r Hc. cbv zeta. unfold updateSelected. run_m. rewrite Hc.
    cbn -[Position.isValid].
    destruct (rep_needsUpdate E r (Position.number (next (trk s))) (world s)) eqn:Hnu;
      cbn -[Position.isValid].
    + destruct (fst (rep_runLocalUpdates E r (world s))) eqn:Hok;
        cbn -[Position.isValid];
        match goal with
        | |- context [if rep_canNoLongerUpdate E r ?w then _ else _] =>
            destruct (rep_canNoLongerUpdate E r w) eqn:Hg
        end; cbn; repeat rewrite Hg; split; reflexivity.
    + destruct (rep_canNoLongerUpdate E r (world s)) eqn:Hg; cbn;
        repeat rewrite Hg; split; reflexivity.
Qed.

(** X16: [reset] is idempotent on the tracker's fields, and on a tracker
    that still has only the listener it was constructed with it restores
    exactly the constructed state. *)
Theorem reset_restores_constructed (s : Sys W) :
  first (trk s) = true ->
  listeners (trk s) = [logic (trk s)] ->
  trk (final (reset E s))
  = constructed (logic (trk s)) (bufferingLogic (trk s)) (adaptationSet (trk s)) /\
  trk (final (reset E (final (reset E s)))) = trk (final (reset E s)).
Proof.
  intros Hf Hl. rewrite !reset_trk. split; [|reflexivity].
  destruct (trk s); cbn in *. subst. reflexivity.
Qed.

(** X17: a listener registered with [registerListener] is notified after
    all the listeners registered before it, each of them seeing the same
    event and the same tracker. *)
Theorem registered_listener_notified_last l ev (s : Sys W) :
  let t' := set_listeners (listeners (trk s) ++ [l]) (trk s) in
  world (final (bind (registerListener l) (fun _ => notify E ev) s))
  = listener_trackerEvent E l ev t'
      (fold_left (fun w x => listener_trackerEvent E x ev t' w)
                 (listeners (trk s)) (world s)) /\
  sent (bind (registerListener l) (fun _ => notify E ev) s) = [(ev, t')].
Proof.
  unfold registerListener. run_m. cbn. rewrite fold_left_app. split; reflexivity.
Qed.

End QueryFacts.

Lemma reset_restores_constructed_witness :
  listeners (trk (Demo.midstream (Codec 1))) = [logic (trk (Demo.midstream (Codec 1)))] /\
  trk (final (reset (Demo.env Demo.plain) (Demo.midstream (Codec 1)))) = Demo.fresh.
Proof.
  split; [reflexivity|].
  exact (proj1 (reset_restores_constructed (Demo.env Demo.plain)
                  (Demo.midstream (Codec 1)) eq_refl eq_refl)).
Defined.

Section Buffering.

Context {W : Type} (E : Env W).

(** With a valid [current], [getMinAheadTime] is the answer of the current
    representation for the current number, asked after the refresh if one
    was needed; neither the adaptation logic nor the buffering logic is
    consulted. *)
Lemma getMinAheadTime_current r (s : Sys W) :
  Position.rep (current (trk s)) = Some r ->
  Position.number (current (trk s)) <> uint64_max ->
  result (getMinAheadTime E s)
  = rep_getMinAheadTime E r (Position.number (current (trk s)))
      (world (final (getMinAheadTime E s))) /\
  events (sent (getMinAheadTime E s))
  = (if rep_needsUpdate E r (Position.number (next (trk s))) (world s)
        && fst (rep_runLocalUpdates E r (world s))
     then [RepresentationUpdatedEvent r] else []) /\
  (rep_needsUpdate E r (Position.number (next (trk s))) (world s) = false ->
   final (getMinAheadTime E s) = s).
Proof.
  intros Hr Hn. apply Z.eqb_neq in Hn.
  unfold getMinAheadTime. run_m. rewrite Hr. cbn -[uint64_max].
  destruct (rep_needsUpdate E r (Position.number (next (trk s))) (world s));
    cbn -[uint64_max].
  - destruct (fst (rep_runLocalUpdates E r (world s)));
      cbn -[uint64_max]; rewrite Hn; cbn -[uint64_max]; rewrite Hn;
      cbn -[uint64_max]; repeat rewrite Hn; cbn -[uint64_max];
      (split; [reflexivity|split; [reflexivity|discriminate]]).
  - rewrite Hn. cbn -[uint64_max]. repeat rewrite Hn. cbn -[uint64_max].
    split; [reflexivity|split; [reflexivity|]]. intros _. now destruct s.
Qed.

(** X18: [bufferingAvailable] never changes a field of the tracker.  On a
    playlist that is not live it answers true and does nothing.  On a live
    one, once a chunk has been handed out ([current] is valid), it answers
    whether the current representation still has time ahead of the current
    segment, asked after the refresh that [getMinAheadTime] may run, and the
    only notification it can send is the RepresentationUpdated of that
    refresh. *)
Theorem bufferingAvailable_effect aset r (s : Sys W) :
  adaptationSet (trk s) = Some aset ->
  Position.rep (current (trk s)) = Some r ->
  Position.isValid (current (trk s)) = true ->
  trk (final (bufferingAvailable E s)) = trk s /\
  (playlist_isLive E aset (world s) = false ->
   bufferingAvailable E s = (true, s, [])) /\
  (playlist_isLive E aset (world s) = true ->
   result (bufferingAvailable E s)
   = (0 <? rep_getMinAheadTime E r (Position.number (current (trk s)))
             (world (final (bufferingAvailable E s)))) /\
   events (sent (bufferingAvailable E s))
   = (if rep_needsUpdate E r (Position.number (next (trk s))) (world s)
         && fst (rep_runLocalUpdates E r (world s))
      then [RepresentationUpdatedEvent r] else [])).
Proof.
  intros Ha Hr Hv. apply Position_isValid_spec in Hv as [Hn _].
  split; [|split].
  - exact (keeps_bufferingAvailable E (fun t => t = trk s) s eq_refl).
  - intros Hl. unfold bufferingAvailable, bind, getTracker, ask, ret.
    rewrite Ha. cbn [fst snd]. rewrite Hl. cbn. now destruct s.
  - intros Hl.
    destruct (getMinAheadTime_current r s Hr Hn) as (Hres & Hev & _).
    unfold bufferingAvailable, bind, getTracker, ask, ret.
    rewrite Ha. cbn [fst snd]. rewrite Hl. cbn [fst snd].
    destruct (getMinAheadTime E s) as [[a s'] l] eqn:Hm.
    cbn [result final sent fst snd] in *.
    rewrite app_nil_r, app_nil_l. subst a. split; [reflexivity|exact Hev].
Qed.

End Buffering.

Lemma bufferingAvailable_effect_witness :
  result (bufferingAvailable (Demo.env Demo.plain) (Demo.midstream (Codec 1))) = true.
Proof.
  exact (eq_trans
           (proj1 (proj2 (proj2 (bufferingAvailable_effect (Demo.env Demo.plain) 0%nat 1%nat
                                   (Demo.midstream (Codec 1)) eq_refl eq_refl eq_refl))
                         eq_refl))
           eq_refl).
Defined.
